(** * SentinelX detection engine: detectors, risk score and rate limiter

    A shallow embedding of the Python routines of the SentinelX security
    analysis document (stored in [frontend/src/hooks/useAuth.js] after the
    React hook): [detect_sqli], [detect_xss], [detect_path_traversal],
    [calculate_risk_score], [sanitize_input] and [check_rate_limit]; and of
    the React hook itself, [AuthProvider] with [checkAuth], [login] and
    [logout].

    Conventions of the embedding.
    - Python [float] values are exact rationals ([Q]); every constant of the
      sources is a decimal literal and the results below are stated up to
      [Qeq] ([==]) or as inequalities.
    - Python [int] values are [Z].
    - Python [str] values are [string]; characters are taken to be ASCII,
      which is where [re.IGNORECASE], [\w], [\d], [\s] and [str.lower] have
      the meaning written out below.
    - [dict] values read with [.get(key, default)] are [gmap]s.
    - The Redis store of the rate limiter is explicit state, passed in and
      returned, and the clock reading [time.time()] is an argument.
    - The hook is a state machine over the token in [localStorage] and the
      React state; an async function runs to its end before the next one
      starts, the server's answers are arguments, and [localStorage] itself
      does not fail. *)

From Stdlib Require Import QArith Qminmax Lqa ZArith List Ascii String Bool Lia.
From stdpp Require Import gmap strings.

Local Open Scope Q_scope.

(** ** Python built-ins *)

Module Py.

(** [min(a, b)]: the first argument unless the second is strictly smaller. *)
Definition min (a b : Q) : Q := if Qle_bool a b then a else b.

Definition is_upper (c : ascii) : bool :=
  (65 <=? nat_of_ascii c)%nat && (nat_of_ascii c <=? 90)%nat.

Definition is_lower (c : ascii) : bool :=
  (97 <=? nat_of_ascii c)%nat && (nat_of_ascii c <=? 122)%nat.

Definition is_digit (c : ascii) : bool :=
  (48 <=? nat_of_ascii c)%nat && (nat_of_ascii c <=? 57)%nat.

(** [\w] on ASCII text: letters, digits and the underscore. *)
Definition is_word (c : ascii) : bool :=
  is_upper c || is_lower c || is_digit c || Ascii.eqb c "_".

(** [\s] on ASCII text: \t, \n, \v, \f, \r, the four separators
    \x1c to \x1f, and the space. *)
Definition is_space (c : ascii) : bool :=
  ((9 <=? nat_of_ascii c)%nat && (nat_of_ascii c <=? 13)%nat)
  || ((28 <=? nat_of_ascii c)%nat && (nat_of_ascii c <=? 32)%nat).

Definition lower_char (c : ascii) : ascii :=
  if is_upper c then ascii_of_nat (nat_of_ascii c + 32) else c.

(** [s.lower()] *)
Fixpoint lower (s : string) : string :=
  match s with
  | EmptyString => EmptyString
  | String c s' => String (lower_char c) (lower s')
  end.

(** [needle in hay] on strings. *)
Fixpoint contains (needle hay : string) : bool :=
  String.prefix needle hay ||
  match hay with
  | EmptyString => false
  | String _ hay' => contains needle hay'
  end.

End Py.

(** ** Regular expressions: the fragment of Python's [re] the detectors use *)

Module Re.

(** One-character atoms. *)
Inductive atom : Type :=
  | Lit (c : ascii)       (* a literal character *)
  | NotLit (c : ascii)    (* [^c] *)
  | AnyChar               (* .  (every character but the newline) *)
  | WordChar              (* \w *)
  | Digit                 (* \d *)
  | Space.                (* \s *)

Inductive regex : Type :=
  | Eps
  | Atom (a : atom)
  | Cat (r1 r2 : regex)
  | Alt (r1 r2 : regex)
  | Star (r : regex)      (* r* and the lazy r*? : search only asks whether a match exists *)
  | WordB.                (* \b *)

Definition Plus (r : regex) : regex := Cat r (Star r).

(** A literal string, character by character. *)
Fixpoint lit (s : string) : regex :=
  match s with
  | EmptyString => Eps
  | String c s' => Cat (Atom (Lit c)) (lit s')
  end.

(** Concatenation of a sequence of pieces; alternation of one or more. *)
Definition seq (rs : list regex) : regex := fold_right Cat Eps rs.

Fixpoint alts (r : regex) (rs : list regex) : regex :=
  match rs with
  | [] => r
  | r' :: rs' => Alt r (alts r' rs')
  end.

(** [ignorecase] is the flag [re.IGNORECASE]. *)
Definition atom_matches (ignorecase : bool) (a : atom) (c : ascii) : bool :=
  match a with
  | Lit x =>
      if ignorecase then Ascii.eqb (Py.lower_char x) (Py.lower_char c)
      else Ascii.eqb x c
  | NotLit x =>
      negb (if ignorecase then Ascii.eqb (Py.lower_char x) (Py.lower_char c)
            else Ascii.eqb x c)
  | AnyChar => negb (Ascii.eqb c "010")
  | WordChar => Py.is_word c
  | Digit => Py.is_digit c
  | Space => Py.is_space c
  end.

Definition is_word_opt (c : option ascii) : bool :=
  match c with Some c => Py.is_word c | None => false end.

Definition head (s : string) : option ascii :=
  match s with EmptyString => None | String c _ => Some c end.

(** [\b]: exactly one of the two neighbours is a word character; the two
    ends of the text count as non-word. *)
Definition at_boundary (prev : option ascii) (s : string) : bool :=
  xorb (is_word_opt prev) (is_word_opt (head s)).

(** The continuation receives the character before the position reached and
    the rest of the text. *)
Definition cont : Type := option ascii -> string -> bool.

(** Iteration for [Star]: stop here, or do one more round that consumes at
    least one character. [n] bounds the rounds by the length of the text. *)
Fixpoint star_loop (step : option ascii -> string -> cont -> bool) (k : cont)
    (n : nat) (prev : option ascii) (s : string) : bool :=
  k prev s ||
  match n with
  | O => false
  | S n' =>
      step prev s (fun prev' s' =>
        (String.length s' <? String.length s)%nat && star_loop step k n' prev' s')
  end.

(** Backtracking matcher: does [r] match at this position in some way that
    lets the continuation succeed? [prev] is the character just before. *)
Fixpoint matches (ignorecase : bool) (r : regex) (prev : option ascii) (s : string)
    (k : cont) : bool :=
  match r with
  | Eps => k prev s
  | Atom a =>
      match s with
      | EmptyString => false
      | String c s' => atom_matches ignorecase a c && k (Some c) s'
      end
  | Cat r1 r2 =>
      matches ignorecase r1 prev s (fun prev' s' => matches ignorecase r2 prev' s' k)
  | Alt r1 r2 => matches ignorecase r1 prev s k || matches ignorecase r2 prev s k
  | Star r1 => star_loop (matches ignorecase r1) k (String.length s) prev s
  | WordB => at_boundary prev s && k prev s
  end.

Definition accept : cont := fun _ _ => true.

Fixpoint search_from (ignorecase : bool) (r : regex) (prev : option ascii)
    (s : string) : bool :=
  matches ignorecase r prev s accept ||
  match s with
  | EmptyString => false
  | String c s' => search_from ignorecase r (Some c) s'
  end.

(** [re.search(pattern, text, flags)] as a truth value. *)
Definition search (ignorecase : bool) (r : regex) (text : string) : bool :=
  search_from ignorecase r None text.

(** No [\b] inside: such a pattern does not look at its surroundings. *)
Fixpoint boundary_free (r : regex) : bool :=
  match r with
  | Eps | Atom _ => true
  | Cat r1 r2 | Alt r1 r2 => boundary_free r1 && boundary_free r2
  | Star r1 => boundary_free r1
  | WordB => false
  end.

End Re.

(** ** Entropy of a text *)

Module Entropy.

Fixpoint count_char (c : ascii) (s : string) : nat :=
  match s with
  | EmptyString => O
  | String x s' => (if Ascii.eqb c x then 1 else 0) + count_char c s'
  end.

Fixpoint distinct_chars (s : string) : list ascii :=
  match s with
  | EmptyString => []
  | String c s' =>
      c :: List.filter (fun x => negb (Ascii.eqb c x)) (distinct_chars s')
  end.

(** Modelled from the spec: the value [calculate_entropy] returns, which
    4.1 gives as the Shannon entropy of the character frequency
    distribution. It is kept as the distribution itself, the length [n] of
    the text and the number of occurrences [c_i] of each distinct character,
    and stands for  H = - sum_i (c_i/n) * log2 (c_i/n)  (0 for the empty
    text). *)
Record entropy : Type := {
  total : Z;
  counts : list Z
}.

(** Modelled from the spec: [calculate_entropy] is called by [detect_sqli]
    and is not among the sources; the specification (4.1) gives it as the
    Shannon entropy over the character frequency distribution of the text. *)
Definition calculate_entropy (text : string) : entropy :=
  {| total := Z.of_nat (String.length text);
     counts := map (fun c => Z.of_nat (count_char c text)) (distinct_chars text) |}.

(** [c^c] multiplied over the counts. *)
Definition counts_power (cs : list Z) : Z :=
  fold_right (fun c acc => (c ^ c * acc)%Z) 1%Z cs.

(** Modelled from the spec: the comparison [entropy > threshold] on that
    value, decided in integers. With n*H = log2 (n^n / prod c_i^c_i),
    H > p/q  iff  (n^n)^q > 2^(p*n) * (prod c_i^c_i)^q  when p >= 0;
    H >= 0 makes the comparison true when p < 0. *)
Definition gt (e : entropy) (threshold : Q) : bool :=
  let p := Qnum threshold in
  let q := Z.pos (Qden threshold) in
  if (p <? 0)%Z then true
  else (2 ^ (p * total e) * counts_power (counts e) ^ q <? (total e ^ total e) ^ q)%Z.

End Entropy.

(** ** Pattern detectors *)

Import Re.

Definition IGNORECASE : bool := true.
Definition NOFLAGS : bool := false.

(** The loops [for p in ps: if test(p): confidence += inc]. *)
Definition add_matches {A : Type} (test : A -> bool) (inc : Q) (ps : list A)
    (confidence : Q) : Q :=
  fold_left (fun confidence p => if test p then confidence + inc else confidence)
    ps confidence.

Definition sql_keywords : list string :=
  ["union"; "select"; "insert"; "drop"; "exec"]%string.

(** [r'\b' + keyword + r'\b'] *)
Definition keyword_pattern (keyword : string) : regex :=
  seq [WordB; lit keyword; WordB].

Definition sql_patterns : list regex :=
  [ (* (\bSELECT|INSERT|UPDATE|DELETE\b.*\bFROM|WHERE\b) *)
    alts (seq [WordB; lit "SELECT"])
         [ lit "INSERT";
           lit "UPDATE";
           seq [lit "DELETE"; WordB; Star (Atom AnyChar); WordB; lit "FROM"];
           seq [lit "WHERE"; WordB] ];
    (* (\bOR\b.*\d+\s*=\s*\d+) *)
    seq [ WordB; lit "OR"; WordB; Star (Atom AnyChar); Plus (Atom Digit);
          Star (Atom Space); lit "="; Star (Atom Space); Plus (Atom Digit) ];
    (* (--|#|/\*|\*/) *)
    alts (lit "--") [ lit "#"; lit "/*"; lit "*/" ] ].

Definition detect_sqli (text : string) : Q :=
  let confidence := 0.0 in
  (* Pattern 1: SQL keywords *)
  let confidence :=
    add_matches (fun keyword => search IGNORECASE (keyword_pattern keyword) text)
      0.2 sql_keywords confidence in
  (* Pattern 2: SQL-specific syntax *)
  let confidence :=
    add_matches (fun pattern => search IGNORECASE pattern text)
      0.3 sql_patterns confidence in
  (* Pattern 3: entropy analysis *)
  let entropy := Entropy.calculate_entropy text in
  let confidence :=
    if Entropy.gt entropy 4.5 then confidence + 0.2 else confidence in
  Py.min confidence 1.0.

Definition xss_patterns : list regex :=
  [ (* <script[^>]*>.*?</script> *)
    seq [ lit "<script"; Star (Atom (NotLit ">")); lit ">";
          Star (Atom AnyChar); lit "</script>" ];
    (* javascript: *)
    lit "javascript:";
    (* vbscript: *)
    lit "vbscript:";
    (* on\w+\s*= *)
    seq [ lit "on"; Plus (Atom WordChar); Star (Atom Space); lit "=" ];
    (* <iframe[^>]*> *)
    seq [ lit "<iframe"; Star (Atom (NotLit ">")); lit ">" ];
    (* eval\s*\( *)
    seq [ lit "eval"; Star (Atom Space); lit "(" ];
    (* document\.cookie *)
    lit "document.cookie" ].

Definition entities : list string := ["&lt;"; "&gt;"; "&#x"; "&#"]%string.

Definition detect_xss (text : string) : Q :=
  let confidence := 0.0 in
  let confidence :=
    add_matches (fun pattern => search IGNORECASE pattern text)
      0.25 xss_patterns confidence in
  (* HTML entity evasion detection *)
  let entity_count :=
    length (List.filter (fun entity => Py.contains entity text) entities) in
  let confidence :=
    if (2 <? entity_count)%nat then confidence + 0.1 else confidence in
  Py.min confidence 1.0.

Definition traversal_patterns : list regex :=
  [ lit "../";          (* \.\./      directory traversal *)
    seq [lit ".."; Atom (Lit "092")];   (* \.\.\\  Windows traversal, "092" being the backslash *)
    lit "%2e%2e%2f";    (* %2e%2e%2f  URL encoded *)
    lit "..%2f" ].      (* \.\.%2f    mixed encoding *)

Definition sensitive_files : list string :=
  ["/etc/passwd"; "/etc/shadow"; "/windows/system32"; "web.config"]%string.

Definition detect_path_traversal (path : string) : Q :=
  let confidence := 0.0 in
  let confidence :=
    add_matches (fun pattern => search NOFLAGS pattern path)
      0.4 traversal_patterns confidence in
  let confidence :=
    add_matches (fun sensitive => Py.contains (Py.lower sensitive) (Py.lower path))
      0.5 sensitive_files confidence in
  Py.min confidence 1.0.

(** ** Risk scoring *)

(** The request handed to the scoring engine; the code reads
    [request_data['ip']] and passes the whole request on. *)
Record request_data : Type := {
  ip : string;
  method : string;
  path : string;
  body : string
}.

(** The record read as [frequency_data['recent_attacks']]. *)
Record frequency_data : Type := {
  recent_attacks : Z
}.

(** [min(frequency_data['recent_attacks'] / 10, 2.0)] *)
Definition frequency_multiplier (recent_attacks : Z) : Q :=
  Py.min (inject_Z recent_attacks / 10) 2.0.

Definition type_weights : gmap string Q :=
  list_to_map
    [ ("sqli", 1.5); ("xss", 1.3); ("path_traversal", 1.4);
      ("command_injection", 1.6); ("brute_force", 1.1) ]%string.

(** [type_weights.get(attack_type, 1.0)] *)
Definition type_weight (attack_type : string) : Q :=
  default 1.0 (type_weights !! attack_type).

Section RiskScore.

(** The three collaborators of the scoring engine are not among the sources:
    the attack history, the payload analysis and the reputation record of a
    source are whatever these return. *)
Variable get_attack_frequency : string -> frequency_data.
Variable analyze_complexity : request_data -> Q.
Variable get_ip_reputation : string -> gmap string Q.

Definition calculate_risk_score (base_confidence : Q) (request : request_data)
    (attack_type : string) : Q :=
  (* Base score from detection confidence *)
  let base_score := base_confidence * 100 in
  (* Frequency multiplier (recent attacks from same IP) *)
  let frequency_data := get_attack_frequency (ip request) in
  let frequency_multiplier := frequency_multiplier (recent_attacks frequency_data) in
  (* Payload complexity analysis *)
  let complexity_multiplier := analyze_complexity request in
  (* IP reputation factor *)
  let reputation_data := get_ip_reputation (ip request) in
  let reputation_multiplier :=
    default 1.0 (reputation_data !! "risk_multiplier"%string) in
  (* Attack type severity weight *)
  let type_weight := type_weight attack_type in
  (* Final calculation *)
  let risk_score :=
    base_score * frequency_multiplier * complexity_multiplier *
    reputation_multiplier * type_weight in
  Py.min risk_score 100.0.

End RiskScore.

(** [clamp(x, lo, hi)] of the specification. *)
Definition clamp (x lo hi : Q) : Q :=
  if Qle_bool x lo then lo else if Qle_bool hi x then hi else x.

(** ** Rate limiter *)

Module Redis.

(** A sorted set: members with their scores, one entry per member. The
    members written by the rate limiter are clock readings, compared as
    numbers. *)
Definition zset : Type := list (Q * Q).

Record entry : Type := {
  members : zset;
  expires_at : option Q      (* the key is gone from this time on *)
}.

Definition is_live (now : Q) (e : entry) : bool :=
  match expires_at e with
  | Some t => negb (Qle_bool t now)
  | None => true
  end.

(** The value under [key] as the server sees it at time [now]. *)
Definition get (now : Q) (key : string) (db : gmap string entry) : option entry :=
  match db !! key with
  | Some e => if is_live now e then Some e else None
  | None => None
  end.

(** [ZADD key score member]: a member already present only has its score
    replaced. *)
Definition zadd (now : Q) (key : string) (member score : Q)
    (db : gmap string entry) : gmap string entry :=
  let others (z : zset) := List.filter (fun e => negb (Qeq_bool (fst e) member)) z in
  match get now key db with
  | Some e =>
      <[key := {| members := (member, score) :: others (members e);
                  expires_at := expires_at e |}]> db
  | None =>
      <[key := {| members := [(member, score)]; expires_at := None |}]> db
  end.

(** [ZREMRANGEBYSCORE key min max]: both bounds inclusive; a sorted set left
    empty is removed. *)
Definition zremrangebyscore (now : Q) (key : string) (lo hi : Q)
    (db : gmap string entry) : gmap string entry :=
  match get now key db with
  | Some e =>
      let kept :=
        List.filter (fun m => negb (Qle_bool lo (snd m) && Qle_bool (snd m) hi))
          (members e) in
      match kept with
      | [] => delete key db
      | _ => <[key := {| members := kept; expires_at := expires_at e |}]> db
      end
  | None => delete key db
  end.

(** [ZCARD key] *)
Definition zcard (now : Q) (key : string) (db : gmap string entry) : Z :=
  match get now key db with
  | Some e => Z.of_nat (length (members e))
  | None => 0%Z
  end.

(** [EXPIRE key seconds]: a timeout that is not positive deletes the key. *)
Definition expire (now : Q) (key : string) (seconds : Z)
    (db : gmap string entry) : gmap string entry :=
  match get now key db with
  | Some e =>
      if (seconds <=? 0)%Z then delete key db
      else <[key := {| members := members e;
                       expires_at := Some (now + inject_Z seconds) |}]> db
  | None => delete key db
  end.

End Redis.

Definition rate_limit_key (ip : string) : string := "rate_limit:" +:+ ip.

Definition default_window : Z := 60.
Definition default_max_requests : Z := 100.

(** [check_rate_limit(ip, window, max_requests)] at clock reading
    [current_time] on the store [redis]: the answer and the store after. *)
Definition check_rate_limit (redis : gmap string Redis.entry) (current_time : Q)
    (ip : string) (window max_requests : Z) : bool * gmap string Redis.entry :=
  let key := rate_limit_key ip in
  (* Add current request *)
  let redis := Redis.zadd current_time key current_time current_time redis in
  (* Remove old entries outside window *)
  let redis :=
    Redis.zremrangebyscore current_time key 0 (current_time - inject_Z window) redis in
  (* Count requests in window *)
  let request_count := Redis.zcard current_time key redis in
  (* Set expiry for cleanup *)
  let redis := Redis.expire current_time key window redis in
  ((request_count <=? max_requests)%Z, redis).

(** A run of requests of one source, one clock reading per request: the
    answers in order and the store at the end. *)
Fixpoint run_requests (redis : gmap string Redis.entry) (ip : string)
    (window max_requests : Z) (times : list Q) : list bool * gmap string Redis.entry :=
  match times with
  | [] => ([], redis)
  | t :: times' =>
      let '(allowed, redis) := check_rate_limit redis t ip window max_requests in
      let '(answers, redis) := run_requests redis ip window max_requests times' in
      (allowed :: answers, redis)
  end.

(** The sorted set stored for a source (empty when the key is absent). *)
Definition window_state (redis : gmap string Redis.entry) (ip : string) : Redis.zset :=
  match redis !! rate_limit_key ip with
  | Some e => Redis.members e
  | None => []
  end.

(** Every stored score of the source is a clock reading since the epoch. *)
Definition scores_nonneg (redis : gmap string Redis.entry) (ip : string) : Prop :=
  Forall (fun m => 0 <= snd m) (window_state redis ip).

(** ** Classification *)

Inductive attack_type : Type :=
  | sqli | xss | path_traversal | brute_force | rate_abuse | none.

(** One detector's verdict: the attack family and the confidence. *)
Definition detection : Type := (attack_type * Q)%type.

(** Modelled from the spec: the inspection orchestrator is not among the
    sources. Step 3 of 4.6: the highest-confidence non-zero result is the
    primary classification, ties broken by the fixed family priority
    sqli > xss > path_traversal > brute_force > rate_abuse. The results are
    listed in priority order, so a later one wins only when strictly
    greater. *)
Definition classify (results : list detection) : attack_type :=
  fst (fold_left
         (fun best r => if Qle_bool (snd r) (snd best) then best else r)
         results (none, 0)).

(** Modelled from the spec: step 2 of 4.6, a deny of the rate limiter
    produces a [rate_abuse] detection whose confidence is a configured
    constant. *)
Definition rate_limit_detection (rate_abuse_confidence : Q) (allowed : bool)
    : detection :=
  if allowed then (rate_abuse, 0) else (rate_abuse, rate_abuse_confidence).

(** Modelled from the spec: step 3 of 4.6, the content detectors run on the
    text and their results are classified together with the rate limiter's. *)
Definition classify_request (rate_abuse_confidence : Q) (allowed : bool)
    (text : string) : attack_type :=
  classify
    [ (sqli, detect_sqli text);
      (xss, detect_xss text);
      (path_traversal, detect_path_traversal text);
      rate_limit_detection rate_abuse_confidence allowed ].

(** ** The rate limiter's window, step by step *)

(** The sorted set of a source as the server sees it at time [now]. *)
Definition live_members (now : Q) (redis : gmap string Redis.entry) (ip : string)
    : Redis.zset :=
  match Redis.get now (rate_limit_key ip) redis with
  | Some e => Redis.members e
  | None => []
  end.

(** What one call at clock reading [t] makes of the sorted set [z]: the
    reading is added (replacing an equal member), then the scores in
    [0, t - window] are removed. *)
Definition window_after (t : Q) (window : Z) (z : Redis.zset) : Redis.zset :=
  List.filter
    (fun m => negb (Qle_bool 0 (snd m) && Qle_bool (snd m) (t - inject_Z window)))
    ((t, t) :: List.filter (fun e => negb (Qeq_bool (fst e) t)) z).

(** The entry written for a request at clock reading [t]. *)
Definition reading (t : Q) : Q * Q := (t, t).

(** Clock readings that strictly increase, starting after [prev]. *)
Fixpoint ascending (prev : Q) (times : list Q) : bool :=
  match times with
  | [] => true
  | t :: rest => negb (Qle_bool t prev) && ascending t rest
  end.

(** ** Scenarios and the specification's own formulas *)

(** The weights as the specification lists them (4.5): five families and a
    default of 1.0 for every other type. *)
Definition spec_type_weight (attack_type : string) : Q :=
  if (attack_type =? "sqli")%string then 1.5
  else if (attack_type =? "xss")%string then 1.3
  else if (attack_type =? "path_traversal")%string then 1.4
  else if (attack_type =? "brute_force")%string then 1.1
  else if (attack_type =? "rate_abuse")%string then 1.0
  else 1.0.

(** The score the specification promises a source without history:
    base_confidence*100 * complexity_multiplier * type_weight, clamped to 100. *)
Definition spec_zero_history_score (base_confidence complexity_multiplier : Q)
    (attack_type : string) : Q :=
  Py.min (base_confidence * 100 * complexity_multiplier * type_weight attack_type) 100.

(** A source with no recorded attack. *)
Definition zero_history : string -> frequency_data :=
  fun _ => {| recent_attacks := 0 |}.

(** A source with ten recent attacks: frequency multiplier 1. *)
Definition ten_recent_attacks : string -> frequency_data :=
  fun _ => {| recent_attacks := 10 |}.

(** A reputation record without the key 'risk_multiplier'. *)
Definition no_reputation : string -> gmap string Q := fun _ => ∅.

(** A reputation record whose 'risk_multiplier' is negative. *)
Definition negative_reputation : string -> gmap string Q :=
  fun _ => {[ "risk_multiplier"%string := -1.0 ]}.

(** A request to score. *)
Definition login_request : request_data :=
  {| ip := "203.0.113.7"; method := "POST"; path := "/api/login";
     body := "user=admin' OR 1=1 --" |}.

(** The cross-site scripting scenario of the specification (8). *)
Definition xss_scenario : string := "<script>alert(document.cookie)</script>".

(** Every signal of [detect_sqli] that fires on [text] fires on [text']. *)
Definition sqli_signals_preserved (text text' : string) : bool :=
  forallb (fun keyword =>
             implb (search IGNORECASE (keyword_pattern keyword) text)
                   (search IGNORECASE (keyword_pattern keyword) text'))
          sql_keywords
  && forallb (fun pattern =>
                implb (search IGNORECASE pattern text)
                      (search IGNORECASE pattern text'))
             sql_patterns
  && implb (Entropy.gt (Entropy.calculate_entropy text) 4.5)
           (Entropy.gt (Entropy.calculate_entropy text') 4.5).

(** [k'] succeeds on the text extended by [q] wherever [k] succeeded,
    whatever came before. *)
Definition cont_extends (q : string) (k k' : cont) : Prop :=
  forall prev prev' s, k prev s = true -> k' prev' (s +:+ q) = true.

(** ** Input sanitization *)

(** [html.escape(s, quote=True)] and [str.replace]. *)
Module Html.

(** The five replacements of [html.escape]: the ampersand first, so that
    the entities written for the other four are not escaped again. On the
    whole text this is one entity per special character. *)
Definition escape_char (c : ascii) : string :=
  if Ascii.eqb c "&" then "&amp;"
  else if Ascii.eqb c "<" then "&lt;"
  else if Ascii.eqb c ">" then "&gt;"
  else if Ascii.eqb c "034" then "&quot;"
  else if Ascii.eqb c "'" then "&#x27;"
  else String c "".

Fixpoint escape (s : string) : string :=
  match s with
  | EmptyString => EmptyString
  | String c s' => escape_char c +:+ escape s'
  end.

(** [s.replace(c, '')] for a one-character [c]. *)
Fixpoint remove_char (c : ascii) (s : string) : string :=
  match s with
  | EmptyString => EmptyString
  | String x s' =>
      if Ascii.eqb x c then remove_char c s' else String x (remove_char c s')
  end.

End Html.

(** [re.sub(pattern, '', text, flags)]: here the way a match is found
    matters, so the star comes in its greedy and its lazy form. *)
Module Sub.

Inductive pattern : Type :=
  | PEps
  | PAtom (a : atom)
  | PCat (p1 p2 : pattern)
  | PAlt (p1 p2 : pattern)
  | PStar (greedy : bool) (p : pattern)    (* p* when greedy, p*? when not *)
  | PWordB.

Definition PPlus (p : pattern) : pattern := PCat p (PStar true p).

Fixpoint plit (s : string) : pattern :=
  match s with
  | EmptyString => PEps
  | String c s' => PCat (PAtom (Lit c)) (plit s')
  end.

Definition pseq (ps : list pattern) : pattern := fold_right PCat PEps ps.

(** The same pattern as [re.search] sees it. *)
Fixpoint erase (p : pattern) : regex :=
  match p with
  | PEps => Eps
  | PAtom a => Atom a
  | PCat p1 p2 => Cat (erase p1) (erase p2)
  | PAlt p1 p2 => Alt (erase p1) (erase p2)
  | PStar _ p1 => Star (erase p1)
  | PWordB => WordB
  end.

(** The continuation answers with the text left after the whole match. *)
Definition pcont : Type := option ascii -> string -> option string.

Definition or_else (a : option string) (b : unit -> option string) : option string :=
  match a with
  | Some r => Some r
  | None => b tt
  end.

(** Iteration for the star, in the order the engine tries: a greedy star
    first tries one more round, a lazy one first tries to stop. *)
Fixpoint star_first (step : option ascii -> string -> pcont -> option string)
    (greedy : bool) (k : pcont) (n : nat) (prev : option ascii) (s : string)
    : option string :=
  let more (_ : unit) :=
    match n with
    | O => None
    | S n' =>
        step prev s (fun prev' s' =>
          if (String.length s' <? String.length s)%nat
          then star_first step greedy k n' prev' s'
          else None)
    end in
  if greedy then or_else (more tt) (fun _ => k prev s)
  else or_else (k prev s) more.

(** The first match in the order of the backtracking engine. *)
Fixpoint first_match (ignorecase : bool) (p : pattern) (prev : option ascii)
    (s : string) (k : pcont) : option string :=
  match p with
  | PEps => k prev s
  | PAtom a =>
      match s with
      | EmptyString => None
      | String c s' =>
          if atom_matches ignorecase a c then k (Some c) s' else None
      end
  | PCat p1 p2 =>
      first_match ignorecase p1 prev s
        (fun prev' s' => first_match ignorecase p2 prev' s' k)
  | PAlt p1 p2 =>
      or_else (first_match ignorecase p1 prev s k)
              (fun _ => first_match ignorecase p2 prev s k)
  | PStar greedy p1 =>
      star_first (first_match ignorecase p1) greedy k (String.length s) prev s
  | PWordB => if at_boundary prev s then k prev s else None
  end.

(** The match to replace at this position: the first one that is not
    empty (an empty match is replaced by nothing, and the engine then asks
    for a match that advances). The answer is the text after the match. *)
Definition match_at (ignorecase : bool) (p : pattern) (prev : option ascii)
    (s : string) : option string :=
  first_match ignorecase p prev s
    (fun _ rest =>
       if (String.length rest <? String.length s)%nat then Some rest else None).

(** Left to right: a match is dropped ([skip] counts the characters of it
    still to drop) and the scan goes on after it; a character where no match
    starts is copied. *)
Fixpoint sub_from (ignorecase : bool) (p : pattern) (prev : option ascii)
    (s : string) (skip : nat) : string :=
  match s with
  | EmptyString => EmptyString
  | String c s' =>
      match skip with
      | S n => sub_from ignorecase p (Some c) s' n
      | O =>
          match match_at ignorecase p prev s with
          | Some rest =>
              sub_from ignorecase p (Some c) s'
                (String.length s' - String.length rest)
          | None => String c (sub_from ignorecase p (Some c) s' 0)
          end
      end
  end.

(** [re.sub(pattern, '', text, flags)] *)
Definition sub (ignorecase : bool) (p : pattern) (text : string) : string :=
  sub_from ignorecase p None text 0.

End Sub.

Import Sub.

Definition dangerous_patterns : list pattern :=
  [ (* <script[^>]*>.*?</script> *)
    pseq [ plit "<script"; PStar true (PAtom (NotLit ">")); plit ">";
           PStar false (PAtom AnyChar); plit "</script>" ];
    (* javascript: *)
    plit "javascript:";
    (* vbscript: *)
    plit "vbscript:";
    (* on\w+\s*= *)
    pseq [ plit "on"; PPlus (PAtom WordChar); PStar true (PAtom Space); plit "=" ] ].

(** Multi-layer input sanitization. *)
Definition sanitize_input (text : string) : string :=
  if String.eqb text "" then ""
  else
    (* Remove null bytes *)
    let text := Html.remove_char "000" text in
    (* HTML entity encoding *)
    let text := Html.escape text in
    (* Remove dangerous patterns *)
    fold_left (fun text pattern => sub IGNORECASE pattern text)
      dangerous_patterns text.

(** The characters of a text, in order. *)
Definition chars (s : string) : list ascii := list_ascii_of_string s.

(** An answer of the engine of [re.sub], as a truth value. *)
Definition found (o : option string) : bool :=
  match o with Some _ => true | None => false end.

(** The null byte and the four characters that open markup or close an
    attribute value. *)
Definition markup_char (c : ascii) : bool :=
  Ascii.eqb c "000" || Ascii.eqb c "<" || Ascii.eqb c ">"
  || Ascii.eqb c "034" || Ascii.eqb c "'".

(** A text [sanitize_input] has nothing to do on: no null byte, none of the
    five characters [html.escape] rewrites, no dangerous pattern. *)
Definition clean (text : string) : bool :=
  forallb (fun c => negb (markup_char c || Ascii.eqb c "&")) (chars text)
  && forallb (fun pattern => negb (search IGNORECASE (erase pattern) text))
       dangerous_patterns.

(** ** Signals of the detectors *)

(** The signals of the detectors on a text: does any keyword, any syntax
    pattern, any traversal sequence, any sensitive file fire? *)
Definition sqli_keyword_hit (text : string) : bool :=
  existsb (fun keyword => search IGNORECASE (keyword_pattern keyword) text)
    sql_keywords.

Definition sqli_pattern_hit (text : string) : bool :=
  existsb (fun pattern => search IGNORECASE pattern text) sql_patterns.

Definition xss_pattern_hit (text : string) : bool :=
  existsb (fun pattern => search IGNORECASE pattern text) xss_patterns.

Definition xss_entity_count (text : string) : nat :=
  length (List.filter (fun entity => Py.contains entity text) entities).

Definition traversal_hit (path : string) : bool :=
  existsb (fun pattern => search NOFLAGS pattern path) traversal_patterns.

Definition sensitive_hit (path : string) : bool :=
  existsb (fun sensitive => Py.contains (Py.lower sensitive) (Py.lower path))
    sensitive_files.

(** [k'] on the lowercased text answers as [k] on the text. *)
Definition cont_lowered (k k' : cont) : Prop :=
  forall prev s, k' (option_map Py.lower_char prev) (Py.lower s) = k prev s.

(** ** Junctions of a text with text added to it *)

(** The last character of [s], or [prev] when [s] is empty. *)
Fixpoint final (prev : option ascii) (s : string) : option ascii :=
  match s with
  | EmptyString => prev
  | String c s' => final (Some c) s'
  end.

Definition last_char (s : string) : option ascii := final None s.

(** A character [\w] may match: a letter, a digit or the underscore, and,
    to stay on the safe side of the ASCII reading of [\w], any character
    that is not ASCII. *)
Definition may_be_word (c : option ascii) : bool :=
  match c with
  | Some c => Py.is_word c || (128 <=? nat_of_ascii c)%nat
  | None => false
  end.

(** Putting [b] right after [a] glues two words together: [a] ends and [b]
    starts with a character that may be a word character. *)
Definition glued (a b : string) : bool :=
  may_be_word (last_char a) && may_be_word (head b).

(** The entropy signal of [detect_sqli], if it fires on [text], fires on
    [text']. *)
Definition entropy_signal_kept (text text' : string) : bool :=
  implb (Entropy.gt (Entropy.calculate_entropy text) 4.5)
        (Entropy.gt (Entropy.calculate_entropy text') 4.5).

(** [k'] succeeds after [q] was added wherever [k] succeeded, at the
    positions of a text that ends with [f]. *)
Definition cont_appends (q : string) (f : option ascii) (k k' : cont) : Prop :=
  forall prev s, final prev s = f -> k prev s = true -> k' prev (s +:+ q) = true.

(** ** ASCII text and patterns *)

(** [s.isascii()] *)
Definition isascii (s : string) : bool :=
  forallb (fun c => (nat_of_ascii c <? 128)%nat) (chars s).

(** A pattern whose literal characters are all ASCII. *)
Definition ascii_atom (a : atom) : bool :=
  match a with
  | Lit c | NotLit c => (nat_of_ascii c <? 128)%nat
  | _ => true
  end.

Fixpoint ascii_pattern (r : regex) : bool :=
  match r with
  | Eps | WordB => true
  | Atom a => ascii_atom a
  | Cat r1 r2 | Alt r1 r2 => ascii_pattern r1 && ascii_pattern r2
  | Star r' => ascii_pattern r'
  end.

(** ** A request among the later checks *)

(** A later call of [check_rate_limit] for the source: the clock reading,
    the window and the maximum it is made with. *)
Definition call : Type := (Q * Z * Z)%type.

(** A run of calls for one source, each with its own window and maximum:
    the answers in order and the store at the end. *)
Fixpoint run_checks (redis : gmap string Redis.entry) (ip : string)
    (calls : list call) : list bool * gmap string Redis.entry :=
  match calls with
  | [] => ([], redis)
  | (t, window, max_requests) :: calls' =>
      let '(allowed, redis) := check_rate_limit redis t ip window max_requests in
      let '(answers, redis) := run_checks redis ip calls' in
      (allowed :: answers, redis)
  end.


(** The later calls reach back to the reading [t]: each has a positive
    window, is made before the key expires ([expiry] is the expiry the call
    before it set, one window after its reading) and less than its own
    window after [t]. *)
Fixpoint reaches (t expiry : Q) (later : list call) : bool :=
  match later with
  | [] => true
  | (u, window, _) :: rest =>
      (0 <? window)%Z
      && negb (Qle_bool expiry u)
      && negb (Qle_bool (t + inject_Z window) u)
      && reaches t (u + inject_Z window) rest
  end.

(** The later calls come after the reading [t], each less than its own
    window after it, with positive windows none of which is longer than the
    one before ([window] before the first). *)
Fixpoint within (t : Q) (window : Z) (later : list call) : bool :=
  match later with
  | [] => true
  | (u, window', _) :: rest =>
      (0 <? window')%Z && (window' <=? window)%Z
      && negb (Qle_bool u t)
      && negb (Qle_bool (t + inject_Z window') u)
      && within t window' rest
  end.

(** The store holds, for the source, what earlier calls with windows no
    shorter than [window] left: every score is a clock reading (not
    negative), the key expires no sooner than [window] after each of them,
    and no member is the reading [t] of the request to come. *)
Definition settled (window : Z) (t : Q) (redis : gmap string Redis.entry)
    (ip : string) : bool :=
  match redis !! rate_limit_key ip with
  | None => true
  | Some e =>
      forallb
        (fun m =>
           Qle_bool 0 (snd m) && negb (Qeq_bool (fst m) t)
           && match Redis.expires_at e with
              | Some x => Qle_bool (snd m + inject_Z window) x
              | None => true
              end)
        (Redis.members e)
  end.




(** The entries a call at [u] keeps of those it finds: those of another
    member whose score is not in the range removed. *)
Definition kept (u : Q) (window : Z) (m : Q * Q) : bool :=
  negb (Qle_bool 0 (snd m) && Qle_bool (snd m) (u - inject_Z window))
  && negb (Qeq_bool (fst m) u).

(** Every entry stored for the source was written at a clock reading since
    the epoch and before [t], under a key that expires no sooner than
    [window] after it. *)
Definition recorded_before (window : Z) (t : Q)
    (redis : gmap string Redis.entry) (ip : string) : Prop :=
  forall e, redis !! rate_limit_key ip = Some e ->
    forall m, In m (Redis.members e) ->
      0 <= snd m /\ fst m < t /\ snd m < t /\
      forall x, Redis.expires_at e = Some x -> snd m + inject_Z window <= x.

(** ** The authentication hook (React) *)

(** The JavaScript values a response body or the user state can hold. *)
Module Js.

#[warnings="-register-all"]
Inductive value : Type :=
  | Undefined
  | Null
  | Bool (b : bool)
  | Num (printed : string)     (* a number, by the text JavaScript prints for it *)
  | Str (s : string)
  | Arr (items : list value)
  | Obj (fields : list (string * value)).

(** [!!v] *)
Definition truthy (v : value) : bool :=
  match v with
  | Undefined | Null => false
  | Bool b => b
  | Num printed => negb (String.eqb printed "0" || String.eqb printed "NaN")
  | Str s => negb (String.eqb s "")
  | Arr _ | Obj _ => true
  end.

Fixpoint lookup_field (name : string) (fields : list (string * value)) : value :=
  match fields with
  | [] => Undefined
  | (k, v) :: rest => if String.eqb k name then v else lookup_field name rest
  end.

(** [const { access_token } = data]: a TypeError ([None]) on null and
    undefined, the own property of an object, undefined on anything else. *)
Definition access_token_of (data : value) : option value :=
  match data with
  | Undefined | Null => None
  | Obj fields => Some (lookup_field "access_token" fields)
  | _ => Some Undefined
  end.

(** [String(v)], the text [localStorage.setItem] stores for [v]. *)
Fixpoint to_string (v : value) : string :=
  match v with
  | Undefined => "undefined"
  | Null => "null"
  | Bool true => "true"
  | Bool false => "false"
  | Num printed => printed
  | Str s => s
  | Arr items =>
      (fix join (l : list value) : string :=
         match l with
         | [] => ""
         | x :: l' =>
             (match x with Undefined | Null => "" | _ => to_string x end)
             +:+ (match l' with [] => "" | _ => "," +:+ join l' end)
         end) items
  | Obj _ => "[object Object]"
  end.

End Js.

(** What the provider holds: the entry 'token' of [localStorage] and the
    two pieces of React state. *)
Record auth : Type := {
  stored_token : option string;
  user : Js.value;
  loading : bool
}.

(** How a call of an async function ends. *)
Inductive outcome (A : Type) : Type :=
  | Returned (a : A)
  | Thrown.
Arguments Returned {A} a.
Arguments Thrown {A}.

(** The server's side of one request: the response body, or [None] when
    axios rejects (no answer, or a status outside 2xx). [GET /api/auth/me]
    is asked with the Authorization header, [POST /api/auth/login] with the
    user name and the password. *)
Definition me_endpoint : Type := string -> option Js.value.
Definition login_endpoint : Type := string -> string -> option Js.value.

(** [if (token)] on what [localStorage.getItem] returned: a string that is
    not empty. *)
Definition usable (token : option string) : bool :=
  match token with
  | Some t => Js.truthy (Js.Str t)
  | None => false
  end.

Definition checkAuth (get_me : me_endpoint) (s : auth) : auth :=
  let s :=
    match stored_token s with
    | Some token =>
        if Js.truthy (Js.Str token) then
          match get_me ("Bearer " +:+ token) with
          | Some data =>
              {| stored_token := stored_token s; user := data; loading := loading s |}
          | None =>
              {| stored_token := None; user := user s; loading := loading s |}
          end
        else s
    | None => s
    end in
  {| stored_token := stored_token s; user := user s; loading := false |}.

Definition login (post_login : login_endpoint) (get_me : me_endpoint)
    (username password : string) (s : auth) : outcome Js.value * auth :=
  match post_login username password with
  | None => (Thrown, s)
  | Some data =>
      match Js.access_token_of data with
      | None => (Thrown, s)
      | Some access_token =>
          let s := {| stored_token := Some (Js.to_string access_token);
                      user := user s; loading := loading s |} in
          let s := checkAuth get_me s in
          (Returned data, s)
      end
  end.

Definition logout (s : auth) : auth :=
  {| stored_token := None; user := Js.Null; loading := loading s |}.

(** [isAuthenticated: !!user] *)
Definition isAuthenticated (s : auth) : bool := Js.truthy (user s).

(** The provider as it mounts: [useState(null)], [useState(true)] and the
    effect that calls [checkAuth]. *)
Definition mount (get_me : me_endpoint) (storage : option string) : auth :=
  checkAuth get_me {| stored_token := storage; user := Js.Null; loading := true |}.

(** What a user of the hook can do, each with the server's answers at that
    moment. *)
Inductive action : Type :=
  | CheckAuth (get_me : me_endpoint)
  | Login (post_login : login_endpoint) (get_me : me_endpoint)
      (username password : string)
  | Logout.

Definition step (s : auth) (a : action) : auth :=
  match a with
  | CheckAuth get_me => checkAuth get_me s
  | Login post_login get_me username password =>
      snd (login post_login get_me username password s)
  | Logout => logout s
  end.

Definition run (actions : list action) (s : auth) : auth :=
  fold_left step actions s.

(** The server accepted a token in the course of the action and answered
    with a body that counts as a user. *)
Definition accepted (a : action) : Prop :=
  match a with
  | CheckAuth get_me | Login _ get_me _ _ =>
      exists header data, get_me header = Some data /\ Js.truthy data = true
  | Logout => False
  end.

(** * Properties *)

(** ** Arithmetic of [min] and of the accumulation loops *)

Section Arithmetic.

Lemma Qle_bool_false (a b : Q) : Qle_bool a b = false -> b < a.
Proof.
  intros E. apply Qnot_le_lt. intros H. apply Qle_bool_iff in H. congruence.
Qed.

Lemma min_le_l (a b : Q) : Py.min a b <= a.
Proof.
  unfold Py.min. destruct (Qle_bool a b) eqn:E.
  - apply Qle_refl.
  - apply Qlt_le_weak, Qle_bool_false, E.
Qed.

Lemma min_le_r (a b : Q) : Py.min a b <= b.
Proof.
  unfold Py.min. destruct (Qle_bool a b) eqn:E.
  - now apply Qle_bool_iff.
  - apply Qle_refl.
Qed.

Lemma min_glb (a b c : Q) : c <= a -> c <= b -> c <= Py.min a b.
Proof. intros Ha Hb. unfold Py.min. now destruct (Qle_bool a b). Qed.

Lemma min_mono (a a' b : Q) : a <= a' -> Py.min a b <= Py.min a' b.
Proof.
  intros H. apply min_glb.
  - apply Qle_trans with a; [apply min_le_l | exact H].
  - apply min_le_r.
Qed.

Lemma min_is_Qmin (a b : Q) : Py.min a b == Qmin a b.
Proof.
  unfold Py.min. destruct (Qle_bool a b) eqn:E.
  - apply Qle_bool_iff in E. symmetry. now apply Q.min_l.
  - apply Qle_bool_false in E. symmetry. apply Q.min_r. now apply Qlt_le_weak.
Qed.

(** The final [min(confidence, 1.0)] of a detector. *)
Lemma min_unit (c : Q) : 0 <= c -> 0 <= Py.min c 1.0 <= 1.
Proof.
  intros H. split.
  - apply min_glb; [exact H | lra].
  - eapply Qle_trans; [apply min_le_r | lra].
Qed.

Context {A : Type}.

Lemma add_matches_lower_bound (test : A -> bool) (inc : Q) (ps : list A) :
  0 <= inc -> forall c, c <= add_matches test inc ps c.
Proof.
  intros Hinc. unfold add_matches. induction ps as [|p ps IH]; intros c; simpl.
  - apply Qle_refl.
  - destruct (test p).
    + apply Qle_trans with (c + inc); [lra | apply IH].
    + apply IH.
Qed.

(** Additive, never subtractive: more signals, no less confidence. *)
Lemma add_matches_mono (test test' : A -> bool) (inc : Q) (ps : list A) :
  0 <= inc ->
  (forall p, In p ps -> test p = true -> test' p = true) ->
  forall c c', c <= c' -> add_matches test inc ps c <= add_matches test' inc ps c'.
Proof.
  intros Hinc. unfold add_matches.
  induction ps as [|p ps IH]; intros Himp c c' Hc; simpl.
  - exact Hc.
  - assert (Hps : forall x, In x ps -> test x = true -> test' x = true)
      by (intros x Hx; apply Himp; now right).
    destruct (test p) eqn:E.
    + rewrite (Himp p (or_introl eq_refl) E). apply IH; [exact Hps | lra].
    + destruct (test' p); apply IH; try exact Hps; lra.
Qed.

End Arithmetic.

(** ** Detector confidence stays in the unit interval *)

Lemma detect_sqli_range (text : string) : 0 <= detect_sqli text <= 1.
Proof.
  unfold detect_sqli. apply min_unit.
  set (c2 := add_matches _ 0.3 _ _).
  assert (H2 : 0 <= c2).
  { subst c2.
    eapply Qle_trans; [|apply add_matches_lower_bound; lra].
    eapply Qle_trans; [|apply add_matches_lower_bound; lra]. lra. }
  destruct (Entropy.gt _ _); lra.
Qed.

Lemma detect_xss_range (text : string) : 0 <= detect_xss text <= 1.
Proof.
  unfold detect_xss. apply min_unit.
  set (c1 := add_matches _ 0.25 _ _).
  assert (H1 : 0 <= c1).
  { subst c1. eapply Qle_trans; [|apply add_matches_lower_bound; lra]. lra. }
  destruct (_ <? _)%nat; lra.
Qed.

Lemma detect_path_traversal_range (path : string) :
  0 <= detect_path_traversal path <= 1.
Proof.
  unfold detect_path_traversal. apply min_unit.
  eapply Qle_trans; [|apply add_matches_lower_bound; lra].
  eapply Qle_trans; [|apply add_matches_lower_bound; lra]. lra.
Qed.

(** C5. For every input text each content detector ([detect_sqli],
    [detect_xss], [detect_path_traversal]) returns a confidence in [0,1]:
    the sum of the non-negative increments is cut off at 1.0 at the end. *)
Theorem detector_confidence_in_unit_interval (text : string) :
  0 <= detect_sqli text <= 1 /\
  0 <= detect_xss text <= 1 /\
  0 <= detect_path_traversal text <= 1.
Proof.
  split; [apply detect_sqli_range|].
  split; [apply detect_xss_range | apply detect_path_traversal_range].
Qed.

(** The other scenarios of the specification (8), run on the embedding. *)
Example sqli_scenario : detect_sqli "' OR 1=1 --" == 0.6.
Proof. vm_compute. reflexivity. Qed.

Example path_traversal_scenario : detect_path_traversal "/../../etc/passwd" == 0.9.
Proof. vm_compute. reflexivity. Qed.

Example benign_scenario :
  detect_sqli "hello world" == 0 /\
  detect_xss "hello world" == 0 /\
  detect_path_traversal "hello world" == 0 /\
  classify_request 0.8 true "hello world" = none.
Proof. repeat split; vm_compute; reflexivity. Qed.

(** ** Frequency multiplier *)

Lemma frequency_multiplier_cap (n : Z) : frequency_multiplier n <= 2.
Proof.
  unfold frequency_multiplier.
  eapply Qle_trans; [apply min_le_r | lra].
Qed.

(** C6. The frequency multiplier is min(recent_attack_count / 10, 2.0): it
    is non-decreasing in the count and never exceeds 2.0. *)
Theorem frequency_multiplier_monotone_capped (a b : Z) :
  (a <= b)%Z ->
  frequency_multiplier a == Qmin (inject_Z a / 10) 2 /\
  frequency_multiplier a <= frequency_multiplier b /\
  frequency_multiplier a <= 2 /\ frequency_multiplier b <= 2.
Proof.
  intros Hab. split; [|split; [|split]].
  - unfold frequency_multiplier. rewrite min_is_Qmin.
    apply Q.min_compat; [reflexivity | lra].
  - unfold frequency_multiplier. apply min_mono.
    assert (H : inject_Z a <= inject_Z b) by (rewrite <- Zle_Qle; exact Hab).
    unfold Qdiv. apply Qmult_le_compat_r; [exact H | discriminate].
  - apply frequency_multiplier_cap.
  - apply frequency_multiplier_cap.
Qed.

Lemma frequency_multiplier_monotone_capped_witness :
  (3 <= 25)%Z /\
  frequency_multiplier 3 <= frequency_multiplier 25 /\
  frequency_multiplier 25 <= 2.
Proof.
  split; [lia|].
  destruct (frequency_multiplier_monotone_capped 3 25) as (_ & H1 & _ & H2);
    [lia | split; assumption].
Defined.

(** ** Attack-type weights *)

Lemma type_weight_cases (attack_type : string) :
  type_weight attack_type =
    if (attack_type =? "sqli")%string then 1.5
    else if (attack_type =? "xss")%string then 1.3
    else if (attack_type =? "path_traversal")%string then 1.4
    else if (attack_type =? "command_injection")%string then 1.6
    else if (attack_type =? "brute_force")%string then 1.1
    else 1.0.
Proof.
  unfold type_weight, type_weights. simpl list_to_map.
  repeat match goal with
         | |- context [(attack_type =? ?s)%string] =>
             destruct (String.eqb_spec attack_type s) as [->|?];
             [reflexivity | rewrite lookup_insert_ne by congruence]
         end.
  now rewrite lookup_empty.
Qed.

Lemma type_weight_pos (attack_type : string) : 0 < type_weight attack_type.
Proof.
  rewrite type_weight_cases.
  repeat (destruct (_ =? _)%string; [reflexivity|]). reflexivity.
Qed.

(** C8, as stated, fails: the table of the code has a sixth entry, so a
    type outside the five listed families does not get the default. *)
Lemma type_weight_command_injection :
  type_weight "command_injection" == 1.6 /\
  ~ type_weight "command_injection" == spec_type_weight "command_injection".
Proof.
  split; [reflexivity|]. intros H. vm_compute in H. discriminate.
Qed.

(** C8, amended. The weight is a fixed function of the attack type: sqli
    1.5, xss 1.3, path_traversal 1.4, brute_force 1.1, rate_abuse 1.0,
    command_injection 1.6, and the default 1.0 for every other type. *)
Theorem type_weight_table (attack_type : string) :
  type_weight attack_type =
    if (attack_type =? "command_injection")%string then 1.6
    else spec_type_weight attack_type.
Proof.
  rewrite type_weight_cases. unfold spec_type_weight.
  repeat match goal with
         | |- context [(attack_type =? ?s)%string] =>
             destruct (String.eqb_spec attack_type s) as [->|?]; [reflexivity|]
         end.
  reflexivity.
Qed.

(** ** Risk score *)

(** C1. The specification has a source without history scored from content
    alone. The code multiplies by min(0 / 10, 2.0) = 0 instead: whatever the
    confidence, the payload and the attack type, the score is 0. *)
Theorem zero_history_risk_score_vanishes
    (analyze_complexity : request_data -> Q)
    (get_ip_reputation : string -> gmap string Q)
    (base_confidence : Q) (request : request_data) (attack_type : string) :
  calculate_risk_score zero_history analyze_complexity get_ip_reputation
    base_confidence request attack_type == 0.
Proof.
  unfold calculate_risk_score, zero_history. cbn [recent_attacks].
  set (f := frequency_multiplier 0).
  assert (E : f == 0) by reflexivity.
  set (m := _ * f * _ * _ * _).
  assert (Hm : m == 0) by (subst m; rewrite E; ring).
  unfold Py.min. destruct (Qle_bool m 100.0) eqn:L.
  - exact Hm.
  - apply Qle_bool_false in L. lra.
Qed.

(** The same at one request: confidence 0.5, plain payload, no reputation
    record, sqli. The code answers 0 where the specification says 75. *)
Example zero_history_login_request :
  calculate_risk_score zero_history (fun _ => 1.0) no_reputation
    0.5 login_request "sqli" == 0 /\
  spec_zero_history_score 0.5 1.0 "sqli" == 75.
Proof. split; reflexivity. Qed.

(** C2, as stated, fails: only the upper bound is enforced, so a negative
    multiplier takes the score below 0. *)
Lemma risk_score_below_zero :
  calculate_risk_score ten_recent_attacks (fun _ => 1.0) negative_reputation
    0.5 login_request "sqli" == -75 /\
  ~ (0 <= calculate_risk_score ten_recent_attacks (fun _ => 1.0) negative_reputation
            0.5 login_request "sqli" <= 100).
Proof.
  split; [reflexivity|]. intros [H _]. vm_compute in H. now apply H.
Qed.

Lemma clamp_is_min (x : Q) : 0 <= x -> Py.min x 100.0 == clamp x 0 100.
Proof.
  intros Hx. unfold Py.min, clamp.
  destruct (Qle_bool x 100.0) eqn:E1, (Qle_bool x 0) eqn:E2,
           (Qle_bool 100 x) eqn:E3;
    repeat match goal with
           | H : Qle_bool _ _ = true |- _ => apply Qle_bool_iff in H
           | H : Qle_bool _ _ = false |- _ => apply Qle_bool_false in H
           end; lra.
Qed.

(** C2, amended. For every base confidence in [0,1], all non-negative
    frequency, complexity and reputation multipliers and every attack type,
    the score is min(product, 100), which is then the product clamped to
    [0,100], and lies in [0,100]. *)
Theorem risk_score_clamped
    (get_attack_frequency : string -> frequency_data)
    (analyze_complexity : request_data -> Q)
    (get_ip_reputation : string -> gmap string Q)
    (base_confidence : Q) (request : request_data) (attack_type : string) :
  let frequency := frequency_multiplier (recent_attacks (get_attack_frequency (ip request))) in
  let complexity := analyze_complexity request in
  let reputation := default 1.0 (get_ip_reputation (ip request) !! "risk_multiplier"%string) in
  let score := calculate_risk_score get_attack_frequency analyze_complexity
                 get_ip_reputation base_confidence request attack_type in
  0 <= base_confidence <= 1 ->
  0 <= frequency -> 0 <= complexity -> 0 <= reputation ->
  score == clamp (base_confidence * 100 * frequency * complexity * reputation
                  * type_weight attack_type) 0 100 /\
  0 <= score <= 100.
Proof.
  intros frequency complexity reputation score [Hb _] Hf Hc Hr.
  assert (Hp : 0 <= base_confidence * 100 * frequency * complexity * reputation
                    * type_weight attack_type).
  { repeat apply Qmult_le_0_compat; try assumption; try lra.
    apply Qlt_le_weak, type_weight_pos. }
  subst score. unfold calculate_risk_score.
  fold frequency. fold complexity. fold reputation.
  split; [now apply clamp_is_min|].
  split; [apply min_glb; [exact Hp | lra]|].
  eapply Qle_trans; [apply min_le_r | lra].
Qed.

Lemma risk_score_clamped_witness :
  0 <= 0.5 <= 1 /\
  0 <= frequency_multiplier (recent_attacks (ten_recent_attacks (ip login_request))) /\
  0 <= 3.0 /\
  0 <= default 1.0 (no_reputation (ip login_request) !! "risk_multiplier"%string) /\
  calculate_risk_score ten_recent_attacks (fun _ => 3.0) no_reputation
    0.5 login_request "sqli" == 100.
Proof.
  assert (Hb : 0 <= 0.5 <= 1) by (split; discriminate).
  assert (Hf : 0 <= frequency_multiplier
                      (recent_attacks (ten_recent_attacks (ip login_request))))
    by (vm_compute; discriminate).
  assert (Hc : 0 <= 3.0) by discriminate.
  assert (Hr : 0 <= default 1.0
                      (no_reputation (ip login_request) !! "risk_multiplier"%string))
    by (vm_compute; discriminate).
  repeat (split; [assumption|]).
  destruct (risk_score_clamped ten_recent_attacks (fun _ => 3.0) no_reputation
              0.5 login_request "sqli" Hb Hf Hc Hr) as [H _].
  rewrite H. reflexivity.
Defined.

(** ** The cross-site scripting scenario *)

(** Two of the seven patterns fire on the scenario: the script tag and the
    cookie access. *)
Example xss_scenario_signals :
  map (fun pattern => search IGNORECASE pattern xss_scenario) xss_patterns
  = [true; false; false; false; false; false; true].
Proof. vm_compute. reflexivity. Qed.

(** C3, as stated, fails: two increments of 0.25 do not reach 0.75. *)
Lemma xss_scenario_below_three_quarters :
  ~ 0.75 <= detect_xss xss_scenario.
Proof. apply Qlt_not_le. vm_compute. reflexivity. Qed.

(** C3, amended. On "<script>alert(document.cookie)</script>" the XSS
    detector returns confidence 0.5 (script tag 0.25 plus cookie access
    0.25), the other content detectors return 0, and the request is
    classified xss. *)
Theorem xss_scenario_classified :
  detect_xss xss_scenario == 0.5 /\
  detect_sqli xss_scenario == 0 /\
  detect_path_traversal xss_scenario == 0 /\
  forall rate_abuse_confidence : Q,
    classify_request rate_abuse_confidence true xss_scenario = xss.
Proof.
  repeat (split; [vm_compute; reflexivity|]).
  intros c. unfold classify_request, rate_limit_detection.
  vm_compute. reflexivity.
Qed.

(** ** Case sensitivity of the path traversal detector *)

(** C10. In [detect_path_traversal] the sensitive-file check compares
    lowercased strings, so paths that differ only in letter case get the
    same sensitive-file increments, while the traversal patterns are matched
    as written: "%2e%2e%2f" scores 0.4, and the uppercase "%2E%2E%2F", with
    no sensitive-file substring, scores 0. *)
Theorem path_traversal_case_sensitivity (path path' : string) :
  Py.lower path = Py.lower path' ->
  add_matches (fun sensitive => Py.contains (Py.lower sensitive) (Py.lower path))
    0.5 sensitive_files 0.0
  = add_matches (fun sensitive => Py.contains (Py.lower sensitive) (Py.lower path'))
      0.5 sensitive_files 0.0
  /\ detect_path_traversal "/ETC/Passwd" == detect_path_traversal "/etc/passwd"
  /\ map (fun pattern => search NOFLAGS pattern "%2e%2e%2f") traversal_patterns
     = [false; false; true; false]
  /\ map (fun pattern => search NOFLAGS pattern "%2E%2E%2F") traversal_patterns
     = [false; false; false; false]
  /\ detect_path_traversal "%2e%2e%2f" == 0.4
  /\ detect_path_traversal "%2E%2E%2F" == 0.
Proof.
  intros H. split; [now rewrite H|].
  repeat split; vm_compute; reflexivity.
Qed.

Lemma path_traversal_case_sensitivity_witness :
  Py.lower "/Windows/System32/CONFIG" = Py.lower "/windows/system32/config" /\
  detect_path_traversal "%2E%2E%2F" == 0.
Proof.
  split; [reflexivity|].
  apply (path_traversal_case_sensitivity
           "/Windows/System32/CONFIG" "/windows/system32/config").
  reflexivity.
Defined.

(** ** Extending a text *)

Section Extension.

Lemma append_cons (c : ascii) (s q : string) :
  String c s +:+ q = String c (s +:+ q).
Proof. reflexivity. Qed.

Lemma length_append (s q : string) :
  String.length (s +:+ q) = (String.length s + String.length q)%nat.
Proof.
  induction s as [|c s IH]; [reflexivity|].
  rewrite append_cons. simpl. now rewrite IH.
Qed.

Lemma append_empty_r (s : string) : s +:+ "" = s.
Proof.
  induction s as [|c s IH]; [reflexivity|].
  rewrite append_cons. now rewrite IH.
Qed.

Lemma lower_append (s q : string) :
  Py.lower (s +:+ q) = Py.lower s +:+ Py.lower q.
Proof.
  induction s as [|c s IH]; [reflexivity|].
  rewrite append_cons. simpl. now rewrite IH.
Qed.

Lemma prefix_append (needle hay q : string) :
  String.prefix needle hay = true -> String.prefix needle (hay +:+ q) = true.
Proof.
  revert hay. induction needle as [|a needle IH]; intros hay H.
  - destruct hay; [destruct q|]; reflexivity.
  - destruct hay as [|b hay]; [discriminate|].
    rewrite append_cons. simpl in *.
    destruct (ascii_dec a b); [now apply IH | discriminate].
Qed.

Lemma contains_append (needle hay q : string) :
  Py.contains needle hay = true -> Py.contains needle (hay +:+ q) = true.
Proof.
  induction hay as [|c hay IH]; intros H.
  - simpl in H. rewrite orb_false_r in H.
    destruct needle; [|discriminate]. now destruct q.
  - cbn [Py.contains] in H. apply orb_true_iff in H as [H|H].
    + change (String c hay +:+ q) with (String c (hay +:+ q)).
      cbn [Py.contains]. apply orb_true_iff. left.
      now apply (prefix_append needle (String c hay) q).
    + change (String c hay +:+ q) with (String c (hay +:+ q)).
      cbn [Py.contains]. apply orb_true_iff. right. now apply IH.
Qed.

Lemma contains_prepend (needle p hay : string) :
  Py.contains needle hay = true -> Py.contains needle (p +:+ hay) = true.
Proof.
  intros H. induction p as [|c p IH]; [exact H|].
  change (String c p +:+ hay) with (String c (p +:+ hay)).
  cbn [Py.contains]. apply orb_true_iff. now right.
Qed.

(** Substring tests survive text added on either side. *)
Lemma contains_extend (needle before hay after : string) :
  Py.contains needle hay = true ->
  Py.contains needle (before +:+ hay +:+ after) = true.
Proof. intros H. now apply contains_prepend, contains_append. Qed.

Variable ignorecase : bool.

Lemma star_loop_extend (step : option ascii -> string -> cont -> bool)
    (q : string) (k k' : cont) :
  (forall prev prev' s j j',
      cont_extends q j j' -> step prev s j = true -> step prev' (s +:+ q) j' = true) ->
  cont_extends q k k' ->
  forall n n' prev prev' s, (n <= n')%nat ->
    star_loop step k n prev s = true ->
    star_loop step k' n' prev' (s +:+ q) = true.
Proof.
  intros Hstep Hk. induction n as [|n IH]; intros n' prev prev' s Hn H.
  - simpl in H. rewrite orb_false_r in H.
    destruct n'; simpl; rewrite (Hk _ prev' _ H); reflexivity.
  - destruct n' as [|n']; [lia|].
    cbn [star_loop] in H |- *. apply orb_true_iff in H as [H|H].
    + rewrite (Hk _ prev' _ H). reflexivity.
    + apply orb_true_iff. right.
      eapply Hstep; [|exact H].
      intros p p' s' Hs'. apply andb_true_iff in Hs' as [Hlen Hloop].
      apply andb_true_iff. split.
      * apply Nat.ltb_lt in Hlen. apply Nat.ltb_lt.
        rewrite !length_append. lia.
      * apply (IH n' p p' s'); [lia | exact Hloop].
Qed.

(** A pattern without [\b] that matches keeps matching when text is added
    after the match, and does not care what came before. *)
Lemma matches_extend (r : regex) :
  boundary_free r = true ->
  forall q prev prev' s k k',
    cont_extends q k k' ->
    matches ignorecase r prev s k = true ->
    matches ignorecase r prev' (s +:+ q) k' = true.
Proof.
  induction r as [|a|r1 IH1 r2 IH2|r1 IH1 r2 IH2|r IH|];
    intros Hbf q prev prev' s k k' Hk H; simpl in Hbf.
  - simpl in *. now apply (Hk prev).
  - destruct s as [|c s]; simpl in *; [discriminate|].
    apply andb_true_iff in H as [Ha Hc]. rewrite Ha. simpl.
    now apply (Hk (Some c)).
  - apply andb_true_iff in Hbf as [Hb1 Hb2]. simpl in *.
    eapply IH1; [exact Hb1| |exact H].
    intros p p' s' Hs'. eapply IH2; eauto.
  - apply andb_true_iff in Hbf as [Hb1 Hb2]. simpl in *.
    apply orb_true_iff in H as [H|H]; apply orb_true_iff.
    + left. eapply IH1; eauto.
    + right. eapply IH2; eauto.
  - simpl in *.
    eapply star_loop_extend; [| exact Hk | | exact H].
    + intros p p' s' j j' Hj Hm. eapply IH; eauto.
    + rewrite length_append. lia.
  - discriminate.
Qed.

Lemma accept_extends (q : string) : cont_extends q accept accept.
Proof. intros prev prev' s _. reflexivity. Qed.

Lemma search_from_append (r : regex) (q : string) :
  boundary_free r = true ->
  forall s prev prev',
    search_from ignorecase r prev s = true ->
    search_from ignorecase r prev' (s +:+ q) = true.
Proof.
  intros Hbf. induction s as [|c s IH]; intros prev prev' H.
  - simpl in H. rewrite orb_false_r in H.
    assert (M : matches ignorecase r prev' ("" +:+ q) accept = true)
      by (eapply matches_extend; eauto using accept_extends).
    change ("" +:+ q) with q in *.
    destruct q; cbn [search_from]; rewrite M; reflexivity.
  - cbn [search_from] in H. apply orb_true_iff in H as [H|H].
    + assert (M : matches ignorecase r prev' (String c s +:+ q) accept = true)
        by (eapply matches_extend; eauto using accept_extends).
      change (String c s +:+ q) with (String c (s +:+ q)) in *.
      cbn [search_from]. rewrite M. reflexivity.
    + change (String c s +:+ q) with (String c (s +:+ q)).
      cbn [search_from]. apply orb_true_iff. right. now apply (IH (Some c)).
Qed.

Lemma search_from_prepend (r : regex) (p : string) :
  boundary_free r = true ->
  forall s prev prev',
    search_from ignorecase r prev s = true ->
    search_from ignorecase r prev' (p +:+ s) = true.
Proof.
  intros Hbf s. induction p as [|c p IH]; intros prev prev' H.
  - pose proof (search_from_append r "" Hbf s prev prev' H) as M.
    now rewrite append_empty_r in M.
  - change (String c p +:+ s) with (String c (p +:+ s)).
    cbn [search_from]. apply orb_true_iff. right. eapply IH; eauto.
Qed.

(** [re.search] with a pattern without [\b] survives text added on either
    side. *)
Lemma search_extend (r : regex) (before text after : string) :
  boundary_free r = true ->
  search ignorecase r text = true ->
  search ignorecase r (before +:+ text +:+ after) = true.
Proof.
  intros Hbf H. unfold search in *.
  apply (search_from_prepend r before Hbf _ None None).
  apply (search_from_append r after Hbf _ None None). exact H.
Qed.

End Extension.

(** ** Monotonicity of the detectors *)

Lemma filter_length_mono {A : Type} (f g : A -> bool) (l : list A) :
  (forall x, In x l -> f x = true -> g x = true) ->
  (length (List.filter f l) <= length (List.filter g l))%nat.
Proof.
  induction l as [|x l IH]; intros H; simpl; [lia|].
  assert (IH' : (length (List.filter f l) <= length (List.filter g l))%nat)
    by (apply IH; intros y Hy; apply H; now right).
  destruct (f x) eqn:E.
  - rewrite (H x (or_introl eq_refl) E). simpl. lia.
  - destruct (g x); simpl; lia.
Qed.

Lemma xss_patterns_boundary_free : forallb boundary_free xss_patterns = true.
Proof. reflexivity. Qed.

Lemma traversal_patterns_boundary_free :
  forallb boundary_free traversal_patterns = true.
Proof. reflexivity. Qed.

Lemma detect_xss_extend (before text after : string) :
  detect_xss text <= detect_xss (before +:+ text +:+ after).
Proof.
  unfold detect_xss. apply min_mono.
  set (c := add_matches _ 0.25 _ _).
  set (c' := add_matches _ 0.25 _ _).
  assert (Hc : c <= c').
  { subst c c'. apply add_matches_mono; [lra | | lra].
    intros p Hp. apply search_extend.
    exact (proj1 (forallb_forall _ _) xss_patterns_boundary_free p Hp). }
  set (n := length _). set (n' := length _).
  assert (Hn : (n <= n')%nat).
  { subst n n'. apply filter_length_mono.
    intros e _. apply contains_extend. }
  destruct (2 <? n)%nat eqn:E.
  - apply Nat.ltb_lt in E.
    assert (E' : (2 <? n')%nat = true) by (apply Nat.ltb_lt; lia).
    rewrite E'. lra.
  - destruct (2 <? n')%nat; lra.
Qed.

Lemma detect_path_traversal_extend (before path after : string) :
  detect_path_traversal path <= detect_path_traversal (before +:+ path +:+ after).
Proof.
  unfold detect_path_traversal. apply min_mono.
  apply add_matches_mono; [lra | |].
  - intros sensitive _. rewrite !lower_append. apply contains_extend.
  - apply add_matches_mono; [lra | | lra].
    intros p Hp. apply search_extend.
    exact (proj1 (forallb_forall _ _) traversal_patterns_boundary_free p Hp).
Qed.

Lemma detect_sqli_signals (text text' : string) :
  sqli_signals_preserved text text' = true ->
  detect_sqli text <= detect_sqli text'.
Proof.
  unfold sqli_signals_preserved. intros H.
  apply andb_true_iff in H as [H He]. apply andb_true_iff in H as [Hk Hp].
  unfold detect_sqli. apply min_mono.
  set (c := add_matches _ 0.3 _ _).
  set (c' := add_matches _ 0.3 _ _).
  assert (Hc : c <= c').
  { subst c c'. apply add_matches_mono; [lra | |].
    - intros p Hin Hm.
      pose proof (proj1 (forallb_forall _ _) Hp p Hin) as Hi.
      cbv beta in Hi. now rewrite Hm in Hi.
    - apply add_matches_mono; [lra | | lra].
      intros kw Hin Hm.
      pose proof (proj1 (forallb_forall _ _) Hk kw Hin) as Hi.
      cbv beta in Hi. now rewrite Hm in Hi. }
  destruct (Entropy.gt (Entropy.calculate_entropy text) 4.5).
  - simpl in He. rewrite He. lra.
  - destruct (Entropy.gt (Entropy.calculate_entropy text') 4.5); lra.
Qed.

(** C7, as stated, fails for [detect_sqli]. A second "union" glued to the
    first takes away the word boundary the keyword pattern needs; and a
    second, separate " drop" lowers the entropy of a text below 4.5 while
    the keyword was already counted. *)
Lemma detect_sqli_not_monotone :
  (search IGNORECASE (keyword_pattern "union") "union" = true /\
   detect_sqli ("union" +:+ "union") < detect_sqli "union") /\
  (search IGNORECASE (keyword_pattern "drop") " drop" = true /\
   detect_sqli ("drop abcefghijklmnqstuv" +:+ " drop")
     < detect_sqli "drop abcefghijklmnqstuv").
Proof. repeat split; vm_compute; reflexivity. Qed.

(** ** Rate limiter *)

Lemma current_outside_range (t : Q) (window : Z) :
  (0 < window)%Z ->
  negb (Qle_bool 0 t && Qle_bool t (t - inject_Z window)) = true.
Proof.
  intros Hw. apply negb_true_iff, andb_false_iff. right.
  destruct (Qle_bool t (t - inject_Z window)) eqn:E; [|reflexivity].
  apply Qle_bool_iff in E.
  assert (0 < inject_Z window) by (change 0 with (inject_Z 0); rewrite <- Zlt_Qlt; exact Hw).
  lra.
Qed.

Lemma window_after_cons (t : Q) (window : Z) (z : Redis.zset) :
  (0 < window)%Z ->
  window_after t window z =
  (t, t) :: List.filter
    (fun m => negb (Qle_bool 0 (snd m) && Qle_bool (snd m) (t - inject_Z window)))
    (List.filter (fun e => negb (Qeq_bool (fst e) t)) z).
Proof.
  intros Hw. unfold window_after. cbn [List.filter snd].
  now rewrite current_outside_range.
Qed.

Lemma get_insert (now : Q) (key : string) (e : Redis.entry)
    (db : gmap string Redis.entry) :
  Redis.is_live now e = true -> Redis.get now key (<[key := e]> db) = Some e.
Proof. intros H. unfold Redis.get. now rewrite lookup_insert_eq, H. Qed.

(** One call with a positive window, in one step. *)
Lemma check_rate_limit_unfold (redis : gmap string Redis.entry) (t : Q)
    (ip : string) (window max_requests : Z) :
  (0 < window)%Z ->
  check_rate_limit redis t ip window max_requests =
    ((Z.of_nat (length (window_after t window (live_members t redis ip)))
        <=? max_requests)%Z,
     <[rate_limit_key ip :=
         {| Redis.members := window_after t window (live_members t redis ip);
            Redis.expires_at := Some (t + inject_Z window) |}]> redis).
Proof.
  intros Hw. unfold check_rate_limit, live_members.
  set (key := rate_limit_key ip).
  rewrite (window_after_cons _ _ _ Hw).
  unfold Redis.zadd.
  destruct (Redis.get t key redis) as [e|] eqn:G.
  - assert (L : Redis.is_live t e = true).
    { unfold Redis.get in G. destruct (redis !! key) as [e0|]; [|discriminate].
      destruct (Redis.is_live t e0) eqn:L0; [|discriminate]. now inversion G; subst. }
    unfold Redis.zremrangebyscore. rewrite get_insert by exact L.
    cbn [Redis.members Redis.expires_at List.filter snd].
    rewrite (current_outside_range _ _ Hw).
    unfold Redis.zcard, Redis.expire. rewrite !get_insert by exact L.
    cbn [Redis.members Redis.expires_at].
    assert (E : (window <=? 0)%Z = false) by (apply Z.leb_gt; exact Hw).
    rewrite E. rewrite !insert_insert_eq. reflexivity.
  - unfold Redis.zremrangebyscore. rewrite get_insert by reflexivity.
    cbn [Redis.members Redis.expires_at List.filter snd fst].
    rewrite (current_outside_range _ _ Hw).
    unfold Redis.zcard, Redis.expire. rewrite !get_insert by reflexivity.
    cbn [Redis.members Redis.expires_at].
    assert (E : (window <=? 0)%Z = false) by (apply Z.leb_gt; exact Hw).
    rewrite E. rewrite !insert_insert_eq. reflexivity.
Qed.

Lemma window_state_insert (redis : gmap string Redis.entry) (ip : string)
    (e : Redis.entry) :
  window_state (<[rate_limit_key ip := e]> redis) ip = Redis.members e.
Proof. unfold window_state. now rewrite lookup_insert_eq. Qed.

Lemma live_members_stored (now : Q) (redis : gmap string Redis.entry)
    (ip : string) (m : Q * Q) :
  In m (live_members now redis ip) -> In m (window_state redis ip).
Proof.
  unfold live_members, window_state, Redis.get.
  destruct (redis !! rate_limit_key ip) as [e|]; [|intros []].
  destruct (Redis.is_live now e); [auto | intros []].
Qed.

Lemma live_members_insert (now : Q) (redis : gmap string Redis.entry)
    (ip : string) (e : Redis.entry) :
  Redis.is_live now e = true ->
  live_members now (<[rate_limit_key ip := e]> redis) ip = Redis.members e.
Proof. intros H. unfold live_members. now rewrite get_insert. Qed.

Lemma positive_window (window : Z) : (0 < window)%Z -> 0 < inject_Z window.
Proof. intros H. change 0 with (inject_Z 0). now rewrite <- Zlt_Qlt. Qed.

Lemma window_after_in (t : Q) (window : Z) (z : Redis.zset) (m : Q * Q) :
  In m (window_after t window z) ->
  m = (t, t) \/
  (In m z /\ (Qle_bool 0 (snd m) && Qle_bool (snd m) (t - inject_Z window)) = false).
Proof.
  unfold window_after. intros H. apply filter_In in H as [H Hr].
  apply negb_true_iff in Hr. destruct H as [H|H]; [now left|].
  apply filter_In in H as [H _]. right. now split.
Qed.


(** ** Every request adds to the count *)








Section OneMore.

Variables (t : Q) (ip : string).







Lemma inject_Z_le (a b : Z) : (a <= b)%Z -> inject_Z a <= inject_Z b.
Proof. intros H. now rewrite <- Zle_Qle. Qed.




(** *** The request stays among the entries counted *)



End OneMore.

(** *** Stores that earlier calls left *)

Lemma recorded_before_empty (window : Z) (t : Q) (ip : string) :
  recorded_before window t ∅ ip.
Proof. intros e He. rewrite lookup_empty in He. discriminate. Qed.

Lemma recorded_before_settled (window : Z) (t : Q)
    (redis : gmap string Redis.entry) (ip : string) :
  recorded_before window t redis ip -> settled window t redis ip = true.
Proof.
  intros H. unfold settled.
  destruct (redis !! rate_limit_key ip) as [e|] eqn:E; [|reflexivity].
  apply forallb_forall. intros m Hm.
  destruct (H e E m Hm) as (H0 & Hf & _ & Hx).
  apply andb_true_iff. split; [apply andb_true_iff; split|].
  - now apply Qle_bool_iff.
  - apply negb_true_iff. destruct (Qeq_bool (fst m) t) eqn:Q; [|reflexivity].
    apply Qeq_bool_iff in Q. lra.
  - destruct (Redis.expires_at e) as [x|]; [|reflexivity].
    apply Qle_bool_iff. now apply Hx.
Qed.

(** A call at a later reading, with a window no shorter, leaves such a
    store again. *)
Lemma check_rate_limit_recorded_before (window : Z) (u t : Q)
    (redis : gmap string Redis.entry) (ip : string) (window' max_requests : Z) :
  (0 < window')%Z -> (window <= window')%Z -> 0 <= u -> u < t ->
  recorded_before window u redis ip ->
  recorded_before window t
    (snd (check_rate_limit redis u ip window' max_requests)) ip.
Proof.
  intros Hw Hle Hu Hut H e He m Hm.
  rewrite (check_rate_limit_unfold _ _ _ _ _ Hw) in He. cbn [snd] in He.
  rewrite lookup_insert_eq in He. inversion He; subst e; clear He.
  cbn [Redis.members Redis.expires_at] in *.
  apply inject_Z_le in Hle.
  apply window_after_in in Hm as [->|[Hin _]].
  - cbn [fst snd]. repeat split; try lra. intros x Hx. inversion Hx; subst x. lra.
  - unfold live_members, Redis.get in Hin.
    destruct (redis !! rate_limit_key ip) as [e|] eqn:E; [|destruct Hin].
    destruct (Redis.is_live u e); [|destruct Hin].
    destruct (H e E m Hin) as (H0 & Hf & Hs & _).
    repeat split; try lra. intros x Hx. inversion Hx; subst x. lra.
Qed.




(** A check with a short window lets the key expire early: the request at
    1000 is then gone at 1010, although a window of 60 reaches back to it. *)
Example early_expiry_forgets_request :
  let ip := "203.0.113.7"%string in
  let after := snd (check_rate_limit ∅ 1000 ip default_window 0) in
  reaches 1000 (1000 + inject_Z default_window) [(1001, 2%Z, 5%Z); (1010, 60%Z, 5%Z)]
  = false /\
  window_state (snd (run_checks after ip [(1001, 2%Z, 5%Z); (1010, 60%Z, 5%Z)])) ip
  = [(1010, 1010)].
Proof. split; vm_compute; reflexivity. Qed.

(** A later check with a longer window counts what the request's own call
    removed: with the request at 1000 (window 60) the check at 1001 under
    window 200 counts 1000 and 1001, without it 900 and 1001. *)
Example longer_window_counts_the_removed :
  let ip := "203.0.113.7"%string in
  let redis := snd (check_rate_limit ∅ 900 ip 200 5) in
  let after := snd (check_rate_limit redis 1000 ip default_window 5) in
  settled default_window 1000 redis ip = true /\
  within 1000 default_window [(1001, 200%Z, 2%Z)] = false /\
  fst (run_checks after ip [(1001, 200%Z, 2%Z)]) = [true] /\
  fst (run_checks redis ip [(1001, 200%Z, 1%Z)]) = [false].
Proof. repeat split; vm_compute; reflexivity. Qed.

(** So does a shorter window before the request: the call at 999 under
    window 2 lets the key expire at 1001; the request at 1000 keeps it, and
    with it the entry 999, for the check at 1002, which counts three with
    the request and one without. *)
Example shorter_window_before_counts_twice :
  let ip := "203.0.113.7"%string in
  let redis := snd (check_rate_limit ∅ 999 ip 2 5) in
  let after := snd (check_rate_limit redis 1000 ip default_window 5) in
  settled default_window 1000 redis ip = false /\
  within 1000 default_window [(1002, 60%Z, 2%Z)] = true /\
  window_state (snd (run_checks after ip [(1002, 60%Z, 2%Z)])) ip
  = [(1002, 1002); (1000, 1000); (999, 999)] /\
  window_state (snd (run_checks redis ip [(1002, 60%Z, 1%Z)])) ip
  = [(1002, 1002)] /\
  fst (run_checks after ip [(1002, 60%Z, 2%Z)]) = [false] /\
  fst (run_checks redis ip [(1002, 60%Z, 1%Z)]) = [true].
Proof. repeat split; vm_compute; reflexivity. Qed.

(** Clock readings since the epoch keep the stored scores non-negative. *)
Lemma check_rate_limit_scores_nonneg
    (redis : gmap string Redis.entry) (ip : string) (window max_requests : Z)
    (t : Q) :
  (0 < window)%Z -> 0 <= t ->
  scores_nonneg redis ip ->
  scores_nonneg (snd (check_rate_limit redis t ip window max_requests)) ip.
Proof.
  intros Hw Ht Hnn. unfold scores_nonneg.
  rewrite (check_rate_limit_unfold _ _ _ _ _ Hw). cbn [snd].
  rewrite window_state_insert. cbn [Redis.members].
  apply List.Forall_forall. intros m Hm.
  apply window_after_in in Hm as [->|[Hin _]]; [exact Ht|].
  exact (proj1 (List.Forall_forall _ _) Hnn m (live_members_stored _ _ _ _ Hin)).
Qed.

Lemma filter_all {A : Type} (f : A -> bool) (l : list A) :
  (forall x, In x l -> f x = true) -> List.filter f l = l.
Proof.
  induction l as [|x l IH]; intros H; simpl; [reflexivity|].
  rewrite (H x (or_introl eq_refl)). f_equal. apply IH.
  intros y Hy. apply H. now right.
Qed.

Lemma window_after_fresh (t : Q) (window : Z) (acc : list Q) :
  (0 < window)%Z ->
  (forall a, In a acc -> t - inject_Z window < a /\ a < t) ->
  window_after t window (map reading acc) = map reading (t :: acc).
Proof.
  intros Hw H. rewrite (window_after_cons _ _ _ Hw). cbn [map]. f_equal.
  rewrite (filter_all (fun e => negb (Qeq_bool (fst e) t))).
  - apply filter_all. intros m Hm. apply in_map_iff in Hm as (a & <- & Ha).
    destruct (H a Ha) as [Hlo _]. simpl.
    apply negb_true_iff, andb_false_iff. right.
    destruct (Qle_bool a (t - inject_Z window)) eqn:L; [|reflexivity].
    apply Qle_bool_iff in L. lra.
  - intros m Hm. apply in_map_iff in Hm as (a & <- & Ha).
    destruct (H a Ha) as [_ Hhi]. simpl.
    apply negb_true_iff. destruct (Qeq_bool a t) eqn:E; [|reflexivity].
    apply Qeq_bool_iff in E. lra.
Qed.

Lemma run_requests_cons (redis : gmap string Redis.entry) (ip : string)
    (window max_requests : Z) (t : Q) (rest : list Q) :
  fst (run_requests redis ip window max_requests (t :: rest)) =
  fst (check_rate_limit redis t ip window max_requests)
  :: fst (run_requests (snd (check_rate_limit redis t ip window max_requests))
            ip window max_requests rest).
Proof.
  cbn [run_requests].
  destruct (check_rate_limit redis t ip window max_requests) as [a r].
  cbn [fst snd].
  now destruct (run_requests r ip window max_requests rest).
Qed.

Lemma last_cons (t d : Q) (rest : list Q) :
  List.last (t :: rest) d = List.last rest t.
Proof.
  revert t d. induction rest as [|u rest IH]; intros t d; [reflexivity|].
  change (List.last (t :: u :: rest) d) with (List.last (u :: rest) d).
  rewrite (IH u d). symmetry. apply (IH u t).
Qed.

Lemma ascending_last (prev : Q) (times : list Q) :
  ascending prev times = true -> prev <= List.last times prev.
Proof.
  revert prev. induction times as [|t rest IH]; intros prev H.
  - simpl. lra.
  - simpl in H. apply andb_true_iff in H as [Hlt Hr].
    apply negb_true_iff, Qle_bool_false in Hlt.
    rewrite last_cons. specialize (IH t Hr). lra.
Qed.

Lemma run_requests_counts (ip : string) (window max_requests : Z) (first : Q) :
  (0 < window)%Z ->
  forall (rest acc : list Q) (redis : gmap string Redis.entry) (prev : Q),
    redis !! rate_limit_key ip
      = Some {| Redis.members := map reading acc;
                Redis.expires_at := Some (prev + inject_Z window) |} ->
    first <= prev ->
    (forall a, In a acc -> first <= a /\ a <= prev) ->
    ascending prev rest = true ->
    List.last rest prev - inject_Z window < first ->
    fst (run_requests redis ip window max_requests rest)
    = map (fun k => (Z.of_nat k <=? max_requests)%Z)
          (List.seq (S (length acc)) (length rest)).
Proof.
  intros Hw. induction rest as [|t rest IH];
    intros acc redis prev Hstore Hfp Hacc Hasc Hlast; [reflexivity|].
  simpl in Hasc. apply andb_true_iff in Hasc as [Hlt Hasc].
  apply negb_true_iff, Qle_bool_false in Hlt.
  rewrite last_cons in Hlast.
  pose proof (ascending_last _ _ Hasc) as Hle.
  assert (Hlive : live_members t redis ip = map reading acc).
  { unfold live_members, Redis.get. rewrite Hstore.
    unfold Redis.is_live. cbn [Redis.expires_at Redis.members].
    destruct (Qle_bool (prev + inject_Z window) t) eqn:L; [|reflexivity].
    apply Qle_bool_iff in L. lra. }
  assert (Hwin : window_after t window (live_members t redis ip)
                 = map reading (t :: acc)).
  { rewrite Hlive. apply window_after_fresh; [exact Hw|].
    intros a Ha. destruct (Hacc a Ha). split; lra. }
  rewrite run_requests_cons, (check_rate_limit_unfold _ _ _ _ _ Hw), Hwin.
  cbn [fst snd]. rewrite length_map.
  cbn [length List.seq map]. f_equal.
  rewrite (IH (t :: acc) _ t); try assumption.
  - reflexivity.
  - now rewrite lookup_insert_eq.
  - lra.
  - intros a [<-|Ha]; [lra|]. destruct (Hacc a Ha). lra.
Qed.

(** Requests of one source at strictly increasing clock readings, the last
    less than [window] after the first, are all counted: the k-th is allowed
    exactly when k does not exceed the maximum. *)
Lemma distinct_readings_are_counted
    (redis : gmap string Redis.entry) (ip : string) (window max_requests : Z)
    (t0 : Q) (rest : list Q) :
  (0 < window)%Z ->
  live_members t0 redis ip = [] ->
  ascending t0 rest = true ->
  List.last rest t0 - inject_Z window < t0 ->
  fst (run_requests redis ip window max_requests (t0 :: rest))
  = map (fun k => (Z.of_nat k <=? max_requests)%Z) (List.seq 1 (S (length rest))).
Proof.
  intros Hw Hempty Hasc Hlast.
  rewrite run_requests_cons, (check_rate_limit_unfold _ _ _ _ _ Hw), Hempty.
  pose proof (window_after_fresh t0 window [] Hw) as Hwin. cbn [map] in Hwin.
  rewrite Hwin by (intros a []).
  cbn [fst snd length List.seq map]. f_equal.
  rewrite (run_requests_counts ip window max_requests t0 Hw rest [t0] _ t0);
    try assumption.
  - reflexivity.
  - now rewrite lookup_insert_eq.
  - lra.
  - intros a [<-|[]]. lra.
Qed.

(** A window that is not positive keeps nothing: the reading just written
    lies in [0, now - window] and goes with the rest. *)
Example empty_window_keeps_nothing :
  check_rate_limit ∅ 1000 "203.0.113.7" 0 default_max_requests = (true, ∅).
Proof. vm_compute. reflexivity. Qed.

Example spaced_requests_last_denied :
  List.last
    (fst (run_requests ∅ "203.0.113.7" default_window default_max_requests
            (map (fun k => inject_Z (Z.of_nat k) * 0.5) (List.seq 0 101))))
    true
  = false.
Proof.
  vm_compute. reflexivity.
Qed.

(** A source whose requests all carry one clock reading is never denied:
    the reading is a single member of the sorted set, however many requests
    wrote it. *)
Lemma same_reading_never_denied (ip : string) (window max_requests : Z) (t : Q) :
  (0 < window)%Z -> (1 <= max_requests)%Z ->
  forall (n : nat) (redis : gmap string Redis.entry),
    live_members t redis ip = [] \/ live_members t redis ip = [reading t] ->
    fst (run_requests redis ip window max_requests (repeat t n)) = repeat true n.
Proof.
  intros Hw Hmax. induction n as [|n IH]; intros redis Hlive; [reflexivity|].
  assert (Hwin : window_after t window (live_members t redis ip) = [reading t]).
  { rewrite (window_after_cons _ _ _ Hw).
    destruct Hlive as [-> | ->]; [reflexivity|].
    cbn [List.filter reading fst]. now rewrite Qeq_bool_refl. }
  cbn [repeat]. rewrite run_requests_cons, (check_rate_limit_unfold _ _ _ _ _ Hw), Hwin.
  cbn [fst snd length]. f_equal.
  - apply Z.leb_le. exact Hmax.
  - apply IH. right. apply live_members_insert.
    unfold Redis.is_live. cbn [Redis.expires_at].
    apply negb_true_iff.
    destruct (Qle_bool (t + inject_Z window) t) eqn:L; [|reflexivity].
    apply Qle_bool_iff in L. apply positive_window in Hw. lra.
Qed.

(** C4. With window 60 and maximum 100 the 101st request within 60 seconds
    is to be denied. For 101 requests that carry one clock reading the code
    allows every one of them, the 101st included: the sorted set keeps one
    member per reading, so the count it compares with the maximum is 1. *)
Theorem burst_at_one_reading_is_allowed :
  fst (run_requests ∅ "203.0.113.7" default_window default_max_requests
         (repeat 1000 101))
  = repeat true 101 /\
  window_state
    (snd (run_requests ∅ "203.0.113.7" default_window default_max_requests
            (repeat 1000 101)))
    "203.0.113.7"
  = [reading 1000] /\
  forall rate_abuse_confidence : Q,
    rate_limit_detection rate_abuse_confidence
      (List.last
         (fst (run_requests ∅ "203.0.113.7" default_window default_max_requests
                 (repeat 1000 101)))
         false)
    = (rate_abuse, 0).
Proof.
  split; [vm_compute; reflexivity|].
  split; [vm_compute; reflexivity|].
  intros c.
  replace (List.last _ false) with true by (vm_compute; reflexivity).
  reflexivity.
Qed.

(** The boundary is cut the same way: with the first of 101 requests exactly
    60 seconds before the last, the first score lies in [0, now - window]
    and is removed, so the 101st request is allowed. *)
Example first_reading_on_the_boundary :
  List.last
    (fst (run_requests ∅ "203.0.113.7" default_window default_max_requests
            (map (fun k => inject_Z (Z.of_nat k) * 0.6) (List.seq 0 101))))
    false
  = true.
Proof. vm_compute. reflexivity. Qed.

(** ** Witnesses for the counting lemmas of the rate limiter *)

Lemma distinct_readings_are_counted_witness :
  (0 < default_window)%Z /\
  ascending 1000 [1020; 1040; 1059.5] = true /\
  fst (run_requests ∅ "203.0.113.7" default_window 3 [1000; 1020; 1040; 1059.5])
  = [true; true; true; false].
Proof.
  split; [reflexivity|]. split; [reflexivity|].
  apply (distinct_readings_are_counted ∅ "203.0.113.7" default_window 3
           1000 [1020; 1040; 1059.5]); reflexivity.
Defined.

Lemma same_reading_never_denied_witness :
  (0 < default_window)%Z /\ (1 <= 1)%Z /\
  fst (run_requests ∅ "203.0.113.7" default_window 1 (repeat 1000 5))
  = repeat true 5.
Proof.
  split; [reflexivity|]. split; [lia|].
  apply (same_reading_never_denied "203.0.113.7" default_window 1 1000);
    [reflexivity | lia | now left].
Defined.

Lemma check_rate_limit_scores_nonneg_witness :
  scores_nonneg
    (snd (check_rate_limit ∅ 1000 "203.0.113.7" default_window default_max_requests))
    "203.0.113.7".
Proof.
  apply (check_rate_limit_scores_nonneg ∅ "203.0.113.7" default_window
           default_max_requests 1000); [reflexivity | discriminate | constructor].
Defined.

(** ** More on the rate limiter *)

Lemma rate_limit_key_inj (ip ip' : string) :
  rate_limit_key ip = rate_limit_key ip' -> ip = ip'.
Proof. unfold rate_limit_key. intros H. now inversion H. Qed.

Section OtherKey.

Variables (now : Q) (key key' : string) (db : gmap string Redis.entry).
Hypothesis Hne : key <> key'.

Lemma zadd_other (member score : Q) :
  Redis.zadd now key member score db !! key' = db !! key'.
Proof.
  unfold Redis.zadd. destruct (Redis.get now key db);
    now rewrite lookup_insert_ne.
Qed.

Lemma zremrangebyscore_other (lo hi : Q) :
  Redis.zremrangebyscore now key lo hi db !! key' = db !! key'.
Proof.
  unfold Redis.zremrangebyscore. destruct (Redis.get now key db) as [e|].
  - destruct (List.filter _ _);
      [now rewrite lookup_delete_ne | now rewrite lookup_insert_ne].
  - now rewrite lookup_delete_ne.
Qed.

Lemma expire_other (seconds : Z) :
  Redis.expire now key seconds db !! key' = db !! key'.
Proof.
  unfold Redis.expire. destruct (Redis.get now key db) as [e|].
  - destruct (seconds <=? 0)%Z;
      [now rewrite lookup_delete_ne | now rewrite lookup_insert_ne].
  - now rewrite lookup_delete_ne.
Qed.

End OtherKey.

Section SameKey.

Variables (now : Q) (key : string) (db1 db2 : gmap string Redis.entry).
Hypothesis Hsame : db1 !! key = db2 !! key.

Lemma get_local : Redis.get now key db1 = Redis.get now key db2.
Proof. unfold Redis.get. now rewrite Hsame. Qed.

Lemma zadd_local (member score : Q) :
  Redis.zadd now key member score db1 !! key
  = Redis.zadd now key member score db2 !! key.
Proof.
  unfold Redis.zadd. rewrite get_local.
  destruct (Redis.get now key db2); now rewrite !lookup_insert_eq.
Qed.

Lemma zremrangebyscore_local (lo hi : Q) :
  Redis.zremrangebyscore now key lo hi db1 !! key
  = Redis.zremrangebyscore now key lo hi db2 !! key.
Proof.
  unfold Redis.zremrangebyscore. rewrite get_local.
  destruct (Redis.get now key db2) as [e|].
  - destruct (List.filter _ _);
      [now rewrite !lookup_delete_eq | now rewrite !lookup_insert_eq].
  - now rewrite !lookup_delete_eq.
Qed.

Lemma zcard_local : Redis.zcard now key db1 = Redis.zcard now key db2.
Proof. unfold Redis.zcard. now rewrite get_local. Qed.

Lemma expire_local (seconds : Z) :
  Redis.expire now key seconds db1 !! key = Redis.expire now key seconds db2 !! key.
Proof.
  unfold Redis.expire. rewrite get_local.
  destruct (Redis.get now key db2) as [e|].
  - destruct (seconds <=? 0)%Z;
      [now rewrite !lookup_delete_eq | now rewrite !lookup_insert_eq].
  - now rewrite !lookup_delete_eq.
Qed.

End SameKey.

(** What a call answers, and what it stores for the source, depends on the
    store only through the entry of that source. *)
Lemma check_rate_limit_local (redis1 redis2 : gmap string Redis.entry) (t : Q)
    (ip : string) (window max_requests : Z) :
  redis1 !! rate_limit_key ip = redis2 !! rate_limit_key ip ->
  fst (check_rate_limit redis1 t ip window max_requests)
  = fst (check_rate_limit redis2 t ip window max_requests)
  /\ snd (check_rate_limit redis1 t ip window max_requests) !! rate_limit_key ip
     = snd (check_rate_limit redis2 t ip window max_requests) !! rate_limit_key ip.
Proof.
  intros H. unfold check_rate_limit. cbn [fst snd].
  pose proof (zadd_local t _ _ _ H t t) as H1.
  pose proof (zremrangebyscore_local t _ _ _ H1 0 (t - inject_Z window)) as H2.
  split.
  - now rewrite (zcard_local t _ _ _ H2).
  - now apply expire_local.
Qed.

(** Sources do not interfere: a call for one source leaves the entry of
    every other source as it was, and so does not change what the next call
    for that other source answers. *)
Theorem check_rate_limit_isolated (redis : gmap string Redis.entry) (t t' : Q)
    (ip ip' : string) (window window' max_requests max_requests' : Z) :
  ip <> ip' ->
  snd (check_rate_limit redis t ip window max_requests) !! rate_limit_key ip'
    = redis !! rate_limit_key ip'
  /\ fst (check_rate_limit
            (snd (check_rate_limit redis t ip window max_requests))
            t' ip' window' max_requests')
     = fst (check_rate_limit redis t' ip' window' max_requests').
Proof.
  intros Hne.
  assert (Hk : rate_limit_key ip <> rate_limit_key ip')
    by (intros E; now apply Hne, rate_limit_key_inj).
  assert (H : snd (check_rate_limit redis t ip window max_requests)
                !! rate_limit_key ip' = redis !! rate_limit_key ip').
  { unfold check_rate_limit. cbn [snd].
    now rewrite expire_other, zremrangebyscore_other, zadd_other. }
  split; [exact H|]. now apply check_rate_limit_local.
Qed.

Lemma check_rate_limit_isolated_witness :
  "203.0.113.7" <> "198.51.100.2" /\
  fst (check_rate_limit
         (snd (check_rate_limit ∅ 1000 "203.0.113.7" 60 0)) 1001 "198.51.100.2" 60 1)
  = fst (check_rate_limit ∅ 1001 "198.51.100.2" 60 1).
Proof.
  assert (H : "203.0.113.7" <> "198.51.100.2") by discriminate.
  split; [exact H|].
  apply (check_rate_limit_isolated ∅ 1000 1001 "203.0.113.7" "198.51.100.2"
           60 60 0 1 H).
Defined.

Lemma check_rate_limit_no_window (redis : gmap string Redis.entry) (t : Q)
    (ip : string) (window max_requests : Z) :
  (window <= 0)%Z -> 0 <= t ->
  redis !! rate_limit_key ip = None ->
  fst (check_rate_limit redis t ip window max_requests) = (0 <=? max_requests)%Z
  /\ snd (check_rate_limit redis t ip window max_requests) !! rate_limit_key ip = None.
Proof.
  intros Hw Ht Hnone. unfold check_rate_limit. cbn [fst snd].
  set (key := rate_limit_key ip) in *.
  assert (Hq : inject_Z window <= 0)
    by (change 0 with (inject_Z 0); now rewrite <- Zle_Qle).
  assert (E1 : Qle_bool 0 t = true) by now apply Qle_bool_iff.
  assert (E2 : Qle_bool t (t - inject_Z window) = true)
    by (apply Qle_bool_iff; lra).
  set (db1 := Redis.zadd t key t t redis).
  assert (D1 : db1 = <[key := {| Redis.members := [(t, t)];
                                 Redis.expires_at := None |}]> redis).
  { unfold db1, Redis.zadd, Redis.get. now rewrite Hnone. }
  set (db2 := Redis.zremrangebyscore t key 0 (t - inject_Z window) db1).
  assert (D2 : db2 = delete key db1).
  { unfold db2, Redis.zremrangebyscore, Redis.get.
    rewrite D1 at 1. rewrite lookup_insert_eq.
    cbn [Redis.is_live Redis.expires_at Redis.members List.filter snd].
    now rewrite E1, E2. }
  assert (G : Redis.get t key db2 = None).
  { unfold Redis.get. now rewrite D2, lookup_delete_eq. }
  unfold Redis.zcard, Redis.expire. rewrite G.
  split; [reflexivity | apply lookup_delete_eq].
Qed.

(** A window that is not positive switches the limiter off: every request
    finds an empty window, so with a maximum of 0 or more none is denied. *)
Theorem nonpositive_window_never_denies (ip : string) (window max_requests : Z)
    (times : list Q) :
  (window <= 0)%Z ->
  Forall (fun t => 0 <= t) times ->
  forall redis : gmap string Redis.entry,
    redis !! rate_limit_key ip = None ->
    fst (run_requests redis ip window max_requests times)
    = repeat (0 <=? max_requests)%Z (length times).
Proof.
  intros Hw Ht. induction Ht as [|t times H0 Hrest IH]; intros redis Hnone;
    [reflexivity|].
  rewrite run_requests_cons.
  destruct (check_rate_limit_no_window redis t ip window max_requests Hw H0 Hnone)
    as [Ha Hs].
  rewrite Ha. cbn [length repeat]. f_equal. now apply IH.
Qed.

Lemma nonpositive_window_never_denies_witness :
  (0 <= 0)%Z /\
  fst (run_requests ∅ "203.0.113.7" 0 1 [1; 1.5; 2; 2.5])
  = [true; true; true; true].
Proof.
  split; [lia|].
  apply (nonpositive_window_never_denies "203.0.113.7" 0 1 [1; 1.5; 2; 2.5]).
  - lia.
  - repeat constructor; discriminate.
  - reflexivity.
Defined.

(** With a positive window the request being checked is itself counted, so
    a maximum below 1 denies every request. *)
Theorem nonpositive_maximum_always_denies (redis : gmap string Redis.entry)
    (t : Q) (ip : string) (window max_requests : Z) :
  (0 < window)%Z -> (max_requests <= 0)%Z ->
  fst (check_rate_limit redis t ip window max_requests) = false.
Proof.
  intros Hw Hm. rewrite (check_rate_limit_unfold _ _ _ _ _ Hw). cbn [fst].
  rewrite (window_after_cons _ _ _ Hw). cbn [length].
  apply Z.leb_gt. lia.
Qed.

Lemma nonpositive_maximum_always_denies_witness :
  fst (check_rate_limit ∅ 1000 "203.0.113.7" 60 0) = false.
Proof.
  apply (nonpositive_maximum_always_denies ∅ 1000 "203.0.113.7" 60 0); lia.
Defined.

(** A quiet period of one window resets the count: the first request that
    comes a full window (or more) after the previous one finds the key
    expired and is counted alone. *)
Theorem quiet_window_resets (redis : gmap string Redis.entry) (t t2 : Q)
    (ip : string) (window max_requests max_requests2 : Z) :
  (0 < window)%Z ->
  t + inject_Z window <= t2 ->
  let redis1 := snd (check_rate_limit redis t ip window max_requests) in
  fst (check_rate_limit redis1 t2 ip window max_requests2) = (1 <=? max_requests2)%Z
  /\ window_state (snd (check_rate_limit redis1 t2 ip window max_requests2)) ip
     = [reading t2].
Proof.
  intros Hw Hq redis1. subst redis1.
  rewrite (check_rate_limit_unfold redis _ _ _ _ Hw). cbn [snd].
  rewrite (check_rate_limit_unfold _ t2 _ _ _ Hw). cbn [fst snd].
  rewrite window_state_insert. cbn [Redis.members].
  assert (E : live_members t2
                (<[rate_limit_key ip :=
                    {| Redis.members := window_after t window (live_members t redis ip);
                       Redis.expires_at := Some (t + inject_Z window) |}]> redis) ip
              = []).
  { unfold live_members, Redis.get. rewrite lookup_insert_eq.
    unfold Redis.is_live. cbn [Redis.expires_at].
    assert (L : Qle_bool (t + inject_Z window) t2 = true) by now apply Qle_bool_iff.
    now rewrite L. }
  rewrite E, (window_after_cons _ _ _ Hw). now split.
Qed.

Lemma quiet_window_resets_witness :
  fst (check_rate_limit
         (snd (check_rate_limit ∅ 1000 "203.0.113.7" 60 100))
         1060 "203.0.113.7" 60 1)
  = true.
Proof.
  apply (quiet_window_resets ∅ 1000 1060 "203.0.113.7" 60 100 1);
    [lia | discriminate].
Defined.

(** ** More on the risk score *)

(** No attack type lowers the score and none more than multiplies it by
    1.6: the weight lies between 1.0, the default, and 1.6. *)
Theorem type_weight_bounds (attack_type : string) :
  1 <= type_weight attack_type <= 1.6.
Proof.
  rewrite type_weight_cases.
  repeat (destruct (_ =? _)%string; [split; discriminate|]).
  split; discriminate.
Qed.

Lemma Qmult_le_mono (a a' b b' : Q) :
  0 <= a -> a <= a' -> 0 <= b -> b <= b' -> a * b <= a' * b'.
Proof.
  intros Ha Haa Hb Hbb.
  apply Qle_trans with (a' * b).
  - apply Qmult_le_compat_r; assumption.
  - rewrite (Qmult_comm a' b), (Qmult_comm a' b').
    apply Qmult_le_compat_r; [assumption | lra].
Qed.

Lemma frequency_multiplier_le (n n' : Z) :
  (n <= n')%Z -> frequency_multiplier n <= frequency_multiplier n'.
Proof.
  intros H. unfold frequency_multiplier. apply min_mono.
  unfold Qdiv. apply Qmult_le_compat_r; [|discriminate].
  now rewrite <- Zle_Qle.
Qed.

(** With multipliers that are not negative, more confidence or more recent
    attacks of the source never lower the score. *)
Theorem risk_score_monotone
    (get_attack_frequency get_attack_frequency' : string -> frequency_data)
    (analyze_complexity : request_data -> Q)
    (get_ip_reputation : string -> gmap string Q)
    (base_confidence base_confidence' : Q) (request : request_data)
    (attack_type : string) :
  0 <= base_confidence <= base_confidence' ->
  (0 <= recent_attacks (get_attack_frequency (ip request))
     <= recent_attacks (get_attack_frequency' (ip request)))%Z ->
  0 <= analyze_complexity request ->
  0 <= default 1.0 (get_ip_reputation (ip request) !! "risk_multiplier"%string) ->
  calculate_risk_score get_attack_frequency analyze_complexity get_ip_reputation
    base_confidence request attack_type
  <= calculate_risk_score get_attack_frequency' analyze_complexity get_ip_reputation
       base_confidence' request attack_type.
Proof.
  intros [Hb Hbb] [Hn Hnn] Hc Hr. unfold calculate_risk_score.
  set (n := recent_attacks (get_attack_frequency (ip request))) in *.
  set (n' := recent_attacks (get_attack_frequency' (ip request))) in *.
  pose proof (frequency_multiplier_le n n' Hnn) as Hf.
  assert (Hf0 : 0 <= frequency_multiplier n).
  { unfold frequency_multiplier. apply min_glb; [|lra].
    unfold Qdiv. apply Qmult_le_0_compat; [|discriminate].
    change 0 with (inject_Z 0). now rewrite <- Zle_Qle. }
  apply min_mono.
  repeat (apply Qmult_le_compat_r;
          [| first [assumption | apply Qlt_le_weak, type_weight_pos]]).
  apply Qmult_le_mono; try assumption; [|lra].
  apply Qmult_le_0_compat; lra.
Qed.

Lemma risk_score_monotone_witness :
  calculate_risk_score zero_history (fun _ => 1.0) no_reputation
    0.5 login_request "xss"
  <= calculate_risk_score ten_recent_attacks (fun _ => 1.0) no_reputation
       0.6 login_request "xss".
Proof.
  apply (risk_score_monotone zero_history ten_recent_attacks (fun _ => 1.0)
           no_reputation 0.5 0.6 login_request "xss").
  - split; discriminate.
  - cbn. lia.
  - discriminate.
  - vm_compute. discriminate.
Defined.


(** ** Signals and confidence *)

Section Signals.

Context {A : Type}.

Lemma add_matches_none (test : A -> bool) (inc : Q) (ps : list A) (c : Q) :
  existsb test ps = false -> add_matches test inc ps c = c.
Proof.
  unfold add_matches. revert c. induction ps as [|p ps IH]; intros c H;
    [reflexivity|].
  simpl in *. apply orb_false_iff in H as [Hp Hps]. rewrite Hp. now apply IH.
Qed.

Lemma add_matches_some (test : A -> bool) (inc : Q) (ps : list A) (c : Q) :
  0 <= inc -> existsb test ps = true -> c + inc <= add_matches test inc ps c.
Proof.
  intros Hinc. unfold add_matches. revert c.
  induction ps as [|p ps IH]; intros c H; [discriminate|].
  simpl in *. destruct (test p).
  - apply (add_matches_lower_bound test inc ps Hinc).
  - apply IH. exact H.
Qed.

End Signals.

(** Confidence 0 means that nothing fired, and a signal that fires is worth
    at least its increment: for [detect_path_traversal] 0.5 with a sensitive
    file and 0.4 with a traversal sequence, for [detect_xss] 0.25 with a
    pattern and 0.1 with the entity markers alone, for [detect_sqli] 0.3
    with a syntax pattern and 0.2 with a keyword. *)
Theorem confidence_by_signal (text : string) :
  (if sensitive_hit text then 0.5 <= detect_path_traversal text
   else if traversal_hit text then 0.4 <= detect_path_traversal text
   else detect_path_traversal text == 0)
  /\ (if xss_pattern_hit text then 0.25 <= detect_xss text
      else if (2 <? xss_entity_count text)%nat then detect_xss text == 0.1
      else detect_xss text == 0)
  /\ (if sqli_pattern_hit text then 0.3 <= detect_sqli text
      else if sqli_keyword_hit text then 0.2 <= detect_sqli text
      else if Entropy.gt (Entropy.calculate_entropy text) 4.5
           then detect_sqli text == 0.2
           else detect_sqli text == 0).
Proof.
  split; [|split].
  - unfold detect_path_traversal, sensitive_hit, traversal_hit.
    set (c1 := add_matches _ 0.4 _ _).
    assert (H1 : 0 <= c1)
      by (eapply Qle_trans; [|apply add_matches_lower_bound; lra]; lra).
    destruct (existsb _ sensitive_files) eqn:S.
    + apply min_glb; [|lra].
      eapply Qle_trans; [|apply add_matches_some; [lra | exact S]]. lra.
    + rewrite (add_matches_none _ _ _ _ S). subst c1.
      destruct (existsb _ traversal_patterns) eqn:T.
      * apply min_glb; [|lra].
        eapply Qle_trans; [|apply add_matches_some; [lra | exact T]]. lra.
      * rewrite (add_matches_none _ _ _ _ T). reflexivity.
  - unfold detect_xss, xss_pattern_hit, xss_entity_count.
    destruct (existsb _ xss_patterns) eqn:P.
    + apply min_glb; [|lra].
      pose proof (add_matches_some
                    (fun pattern => search IGNORECASE pattern text)
                    0.25 xss_patterns 0.0 ltac:(lra) P) as H.
      destruct (_ <? _)%nat; lra.
    + rewrite (add_matches_none _ _ _ _ P).
      destruct (_ <? _)%nat; reflexivity.
  - unfold detect_sqli, sqli_pattern_hit, sqli_keyword_hit.
    set (c1 := add_matches _ 0.2 _ _).
    assert (H1 : 0 <= c1)
      by (eapply Qle_trans; [|apply add_matches_lower_bound; lra]; lra).
    destruct (existsb _ sql_patterns) eqn:P.
    + apply min_glb; [|lra].
      pose proof (add_matches_some
                    (fun pattern => search IGNORECASE pattern text)
                    0.3 sql_patterns c1 ltac:(lra) P) as H.
      destruct (Entropy.gt _ _); lra.
    + rewrite (add_matches_none _ _ _ _ P). subst c1.
      destruct (existsb _ sql_keywords) eqn:K.
      * apply min_glb; [|lra].
        pose proof (add_matches_some
                      (fun keyword => search IGNORECASE (keyword_pattern keyword) text)
                      0.2 sql_keywords 0.0 ltac:(lra) K) as H.
        destruct (Entropy.gt _ _); lra.
      * rewrite (add_matches_none _ _ _ _ K).
        destruct (Entropy.gt _ _); reflexivity.
Qed.

(** ** Letter case *)

Lemma lower_char_idempotent (c : ascii) :
  Py.lower_char (Py.lower_char c) = Py.lower_char c.
Proof. destruct c as [[] [] [] [] [] [] [] []]; reflexivity. Qed.

Lemma atom_matches_lower (a : atom) (c : ascii) :
  atom_matches IGNORECASE a (Py.lower_char c) = atom_matches IGNORECASE a c.
Proof.
  destruct a as [x|x| | | |]; cbn [atom_matches IGNORECASE];
    rewrite ?lower_char_idempotent; try reflexivity;
    destruct c as [[] [] [] [] [] [] [] []]; reflexivity.
Qed.

Lemma is_word_lower (c : ascii) : Py.is_word (Py.lower_char c) = Py.is_word c.
Proof. destruct c as [[] [] [] [] [] [] [] []]; reflexivity. Qed.

Lemma length_lower (s : string) : String.length (Py.lower s) = String.length s.
Proof. induction s as [|c s IH]; simpl; [reflexivity | now rewrite IH]. Qed.

Lemma at_boundary_lower (prev : option ascii) (s : string) :
  at_boundary (option_map Py.lower_char prev) (Py.lower s) = at_boundary prev s.
Proof.
  unfold at_boundary. f_equal.
  - destruct prev; simpl; [apply is_word_lower | reflexivity].
  - destruct s; simpl; [reflexivity | apply is_word_lower].
Qed.

Lemma star_loop_lower (step : option ascii -> string -> cont -> bool) (k k' : cont) :
  (forall prev s j j', cont_lowered j j' ->
     step (option_map Py.lower_char prev) (Py.lower s) j' = step prev s j) ->
  cont_lowered k k' ->
  forall n, cont_lowered (star_loop step k n) (star_loop step k' n).
Proof.
  intros Hstep Hk. induction n as [|n IH]; intros prev s; cbn [star_loop].
  - now rewrite Hk.
  - rewrite Hk. f_equal. apply Hstep. intros p x.
    now rewrite !length_lower, IH.
Qed.

Lemma matches_lower (r : regex) :
  forall k k', cont_lowered k k' ->
    cont_lowered (fun prev s => matches IGNORECASE r prev s k)
                 (fun prev s => matches IGNORECASE r prev s k').
Proof.
  induction r as [|a|r1 IH1 r2 IH2|r1 IH1 r2 IH2|r IH|];
    intros k k' Hk prev s; cbn [matches].
  - apply Hk.
  - destruct s as [|c s]; [reflexivity|]. cbn [Py.lower].
    rewrite atom_matches_lower. f_equal. apply (Hk (Some c)).
  - apply (IH1 _ _ (IH2 _ _ Hk)).
  - f_equal; [apply (IH1 _ _ Hk) | apply (IH2 _ _ Hk)].
  - rewrite length_lower.
    apply (star_loop_lower (matches IGNORECASE r) k k'); [|exact Hk].
    intros p x j j' Hj. apply (IH _ _ Hj).
  - rewrite at_boundary_lower. f_equal. apply Hk.
Qed.

Lemma search_from_lower (r : regex) :
  forall s prev,
    search_from IGNORECASE r (option_map Py.lower_char prev) (Py.lower s)
    = search_from IGNORECASE r prev s.
Proof.
  induction s as [|c s IH]; intros prev.
  - cbn [search_from Py.lower]. f_equal.
    apply (matches_lower r accept accept (fun _ _ => eq_refl) prev "").
  - cbn [search_from Py.lower]. f_equal.
    + apply (matches_lower r accept accept (fun _ _ => eq_refl) prev (String c s)).
    + apply (IH (Some c)).
Qed.

Lemma existsb_pointwise {A : Type} (f g : A -> bool) (l : list A) :
  (forall x, f x = g x) -> existsb f l = existsb g l.
Proof.
  intros H. induction l as [|x l IH]; simpl; [reflexivity|]. now rewrite H, IH.
Qed.

(** Under [re.IGNORECASE], on ASCII text, an ASCII pattern matches a text
    exactly when it matches the lowercased text: the keyword and pattern
    signals of [detect_sqli] and [detect_xss] do not depend on the letter
    case of an ASCII text. *)
Theorem ignorecase_signals_lower (text : string) :
  isascii text = true ->
  (forall r : regex,
     ascii_pattern r = true ->
     search IGNORECASE r (Py.lower text) = search IGNORECASE r text)
  /\ sqli_keyword_hit (Py.lower text) = sqli_keyword_hit text
  /\ sqli_pattern_hit (Py.lower text) = sqli_pattern_hit text
  /\ xss_pattern_hit (Py.lower text) = xss_pattern_hit text.
Proof.
  intros _.
  assert (H : forall r, search IGNORECASE r (Py.lower text) = search IGNORECASE r text)
    by (intros r; apply (search_from_lower r text None)).
  split; [intros r _; apply H|].
  unfold sqli_keyword_hit, sqli_pattern_hit, xss_pattern_hit.
  repeat split; apply existsb_pointwise; intros x; apply H.
Qed.

Lemma ignorecase_signals_lower_witness :
  isascii "1 UNION Select <SCRIPT>" = true /\
  ascii_pattern (keyword_pattern "union") = true /\
  search IGNORECASE (keyword_pattern "union") (Py.lower "1 UNION Select <SCRIPT>")
  = search IGNORECASE (keyword_pattern "union") "1 UNION Select <SCRIPT>" /\
  xss_pattern_hit (Py.lower "1 UNION Select <SCRIPT>")
  = xss_pattern_hit "1 UNION Select <SCRIPT>".
Proof.
  assert (Ha : isascii "1 UNION Select <SCRIPT>" = true) by reflexivity.
  assert (Hp : ascii_pattern (keyword_pattern "union") = true) by reflexivity.
  destruct (ignorecase_signals_lower "1 UNION Select <SCRIPT>" Ha)
    as (H & _ & _ & Hx).
  split; [exact Ha|]. split; [exact Hp|]. split; [exact (H _ Hp) | exact Hx].
Defined.

(** ** Sanitization *)

Section SubProperties.

Lemma chars_append (a b : string) : chars (a +:+ b) = chars a ++ chars b.
Proof.
  induction a as [|c a IH]; [reflexivity|].
  rewrite append_cons. simpl. now rewrite IH.
Qed.

Lemma found_or_else (a : option string) (b : unit -> option string) :
  found (or_else a b) = found a || found (b tt).
Proof. now destruct a. Qed.

Variable ignorecase : bool.

(** Continuations that agree give the same answer. *)
Lemma star_loop_ext (step : option ascii -> string -> cont -> bool) (k k' : cont) :
  (forall prev s j j', (forall p x, j p x = j' p x) -> step prev s j = step prev s j') ->
  (forall p x, k p x = k' p x) ->
  forall n prev s, star_loop step k n prev s = star_loop step k' n prev s.
Proof.
  intros Hstep Hk. induction n as [|n IH]; intros prev s; simpl.
  - now rewrite Hk.
  - rewrite Hk. f_equal. apply Hstep. intros p x. now rewrite IH.
Qed.

Lemma matches_ext (r : regex) :
  forall prev s k k', (forall p x, k p x = k' p x) ->
    matches ignorecase r prev s k = matches ignorecase r prev s k'.
Proof.
  induction r as [|a|r1 IH1 r2 IH2|r1 IH1 r2 IH2|r IH|];
    intros prev s k k' Hk; simpl.
  - apply Hk.
  - destruct s; [reflexivity|]. now rewrite Hk.
  - apply IH1. intros p x. now apply IH2.
  - now rewrite (IH1 _ _ k k' Hk), (IH2 _ _ k k' Hk).
  - apply star_loop_ext; [|exact Hk]. intros p x j j' Hj. now apply IH.
  - now rewrite Hk.
Qed.

Lemma star_first_found (step : option ascii -> string -> pcont -> option string)
    (step' : option ascii -> string -> cont -> bool) (greedy : bool) (k : pcont) :
  (forall prev s j, found (step prev s j) = step' prev s (fun p x => found (j p x))) ->
  (forall prev s j j', (forall p x, j p x = j' p x) -> step' prev s j = step' prev s j') ->
  forall n prev s,
    found (star_first step greedy k n prev s)
    = star_loop step' (fun p x => found (k p x)) n prev s.
Proof.
  intros Hstep Hext. induction n as [|n IH]; intros prev s.
  - cbn [star_first star_loop].
    destruct greedy; rewrite found_or_else; cbn [found];
      now rewrite ?orb_false_r.
  - cbn [star_first star_loop].
    destruct greedy; rewrite found_or_else, Hstep.
    + rewrite orb_comm. f_equal. apply Hext. intros p x.
      destruct (_ <? _)%nat; [now rewrite IH | reflexivity].
    + f_equal. apply Hext. intros p x.
      destruct (_ <? _)%nat; [now rewrite IH | reflexivity].
Qed.

(** The engine of [re.sub] finds a match exactly where [re.search] does. *)
Lemma first_match_found (p : pattern) :
  forall prev s k,
    found (first_match ignorecase p prev s k)
    = matches ignorecase (erase p) prev s (fun q x => found (k q x)).
Proof.
  induction p as [|a|p1 IH1 p2 IH2|p1 IH1 p2 IH2|g p IH|]; intros prev s k; simpl.
  - reflexivity.
  - destruct s; [reflexivity|]. now destruct (atom_matches ignorecase a a0).
  - rewrite IH1. apply matches_ext. intros q x. apply IH2.
  - now rewrite found_or_else, IH1, IH2.
  - apply star_first_found.
    + intros q x j. apply IH.
    + intros q x j j' Hj. now apply matches_ext.
  - now destruct (at_boundary prev s).
Qed.

Lemma star_loop_weaken (step : option ascii -> string -> cont -> bool) (k k' : cont) :
  (forall prev s j j', (forall p x, j p x = true -> j' p x = true) ->
     step prev s j = true -> step prev s j' = true) ->
  (forall p x, k p x = true -> k' p x = true) ->
  forall n prev s, star_loop step k n prev s = true -> star_loop step k' n prev s = true.
Proof.
  intros Hstep Hk. induction n as [|n IH]; intros prev s H; cbn [star_loop] in *.
  - rewrite orb_false_r in *. now apply Hk.
  - apply orb_true_iff in H as [H|H]; apply orb_true_iff; [left; now apply Hk|].
    right. eapply Hstep; [|exact H].
    intros p x Hx. apply andb_true_iff in Hx as [Hl Hx].
    rewrite Hl. simpl. now apply IH.
Qed.

(** A continuation that accepts more cannot lose a match. *)
Lemma matches_weaken (r : regex) :
  forall prev s k k', (forall p x, k p x = true -> k' p x = true) ->
    matches ignorecase r prev s k = true -> matches ignorecase r prev s k' = true.
Proof.
  induction r as [|a|r1 IH1 r2 IH2|r1 IH1 r2 IH2|r IH|];
    intros prev s k k' Hk H; simpl in *.
  - now apply Hk.
  - destruct s; [discriminate|].
    apply andb_true_iff in H as [Ha H]. rewrite Ha. simpl. now apply Hk.
  - eapply IH1; [|exact H]. intros p x. now apply IH2.
  - apply orb_true_iff in H as [H|H]; apply orb_true_iff.
    + left. eapply IH1; eauto.
    + right. eapply IH2; eauto.
  - eapply star_loop_weaken; [|exact Hk|exact H].
    intros p x j j' Hj. now apply IH.
  - apply andb_true_iff in H as [Hb H]. rewrite Hb. simpl. now apply Hk.
Qed.

(** Where [re.search] finds nothing, [re.sub] has no match to replace. *)
Lemma match_at_none (p : pattern) (prev : option ascii) (s : string) :
  matches ignorecase (erase p) prev s accept = false ->
  match_at ignorecase p prev s = None.
Proof.
  intros H. unfold match_at.
  destruct (first_match _ _ _ _ _) as [rest|] eqn:E; [|reflexivity].
  assert (F : found (first_match ignorecase p prev s
                (fun _ rest => if (String.length rest <? String.length s)%nat
                               then Some rest else None)) = true)
    by now rewrite E.
  rewrite first_match_found in F.
  apply (matches_weaken _ _ _ _ accept) in F; [congruence | reflexivity].
Qed.

Lemma sub_from_unchanged (p : pattern) :
  forall s prev,
    search_from ignorecase (erase p) prev s = false ->
    sub_from ignorecase p prev s 0 = s.
Proof.
  induction s as [|c s IH]; intros prev H; [reflexivity|].
  cbn [search_from] in H. apply orb_false_iff in H as [Hm Hs].
  cbn [sub_from]. rewrite (match_at_none _ _ _ Hm). f_equal. now apply IH.
Qed.

(** [re.sub] only deletes: every character it returns was in the text. *)
Lemma sub_from_chars (p : pattern) (c : ascii) :
  forall s prev skip,
    In c (chars (sub_from ignorecase p prev s skip)) -> In c (chars s).
Proof.
  induction s as [|x s IH]; intros prev skip H; [exact H|].
  cbn [sub_from] in H. destruct skip as [|n].
  - destruct (match_at ignorecase p prev (String x s)).
    + right. eapply IH; exact H.
    + destruct H as [H|H]; [now left | right; eapply IH; exact H].
  - right. eapply IH; exact H.
Qed.

End SubProperties.

Lemma sub_unchanged (ignorecase : bool) (p : pattern) (text : string) :
  search ignorecase (erase p) text = false -> sub ignorecase p text = text.
Proof. apply sub_from_unchanged. Qed.

Lemma sub_chars (ignorecase : bool) (p : pattern) (text : string) (c : ascii) :
  In c (chars (sub ignorecase p text)) -> In c (chars text).
Proof. apply sub_from_chars. Qed.

Lemma sub_all_chars (ps : list pattern) (c : ascii) :
  forall text,
    In c (chars (fold_left (fun text pattern => sub IGNORECASE pattern text) ps text)) ->
    In c (chars text).
Proof.
  induction ps as [|p ps IH]; intros text H; [exact H|].
  simpl in H. apply IH in H. now apply sub_chars in H.
Qed.

Lemma escape_char_chars (x c : ascii) :
  In c (chars (Html.escape_char x)) ->
  (Ascii.eqb c "<" || Ascii.eqb c ">" || Ascii.eqb c "034" || Ascii.eqb c "'") = false
  /\ (c = "000"%char -> x = "000"%char).
Proof.
  unfold Html.escape_char.
  repeat match goal with
         | |- context [if Ascii.eqb x ?a then _ else _] =>
             destruct (Ascii.eqb_spec x a)
         end;
    simpl; intros H;
    repeat match goal with
           | H : _ \/ _ |- _ => destruct H as [H|H]
           | H : False |- _ => destruct H
           end;
    subst; try (split; [reflexivity | discriminate]).
  split; [|now intros ->].
  repeat match goal with
         | H : c <> ?a |- _ =>
             apply Ascii.eqb_neq in H; rewrite H; clear H
         end.
  reflexivity.
Qed.

Lemma escape_chars (s : string) (c : ascii) :
  In c (chars (Html.escape s)) ->
  (Ascii.eqb c "<" || Ascii.eqb c ">" || Ascii.eqb c "034" || Ascii.eqb c "'") = false
  /\ (c = "000"%char -> In c (chars s)).
Proof.
  induction s as [|x s IH]; [intros []|].
  simpl. rewrite chars_append. intros H. apply in_app_or in H as [H|H].
  - apply escape_char_chars in H as [H1 H2]. split; [exact H1|].
    intros E. left. rewrite E. now apply H2.
  - apply IH in H as [H1 H2]. split; [exact H1|]. intros E. right. now apply H2.
Qed.

Lemma remove_char_chars (c : ascii) (s : string) :
  ~ In c (chars (Html.remove_char c s)).
Proof.
  induction s as [|x s IH]; [intros []|].
  simpl. destruct (Ascii.eqb_spec x c) as [->|N]; [exact IH|].
  intros [H|H]; [congruence | now apply IH].
Qed.

(** What [sanitize_input] returns holds no null byte and none of the
    characters <, >, double quote and apostrophe. *)
Theorem sanitize_input_no_markup (text : string) :
  forallb (fun c => negb (markup_char c)) (chars (sanitize_input text)) = true.
Proof.
  apply forallb_forall. intros c Hc. apply negb_true_iff.
  unfold sanitize_input in Hc. destruct (String.eqb text ""); [destruct Hc|].
  apply sub_all_chars, escape_chars in Hc as [H1 H2].
  unfold markup_char. destruct (Ascii.eqb_spec c "000") as [E|_].
  - exfalso. subst c. exact (remove_char_chars _ _ (H2 eq_refl)).
  - rewrite <- !orb_assoc in *. exact H1.
Qed.

Lemma escape_sub_script (s : string) :
  ~ In "<"%char (chars s) ->
  forall prev, sub_from IGNORECASE (hd PEps dangerous_patterns) prev s 0 = s.
Proof.
  induction s as [|c s IH]; intros Hnot prev; [reflexivity|].
  cbn [sub_from].
  assert (E : match_at IGNORECASE (hd PEps dangerous_patterns) prev (String c s) = None).
  { unfold match_at. cbn -[atom_matches String.length Nat.ltb].
    assert (A : atom_matches IGNORECASE (Lit "<") c = false).
    { destruct (atom_matches IGNORECASE (Lit "<") c) eqn:A; [|reflexivity].
      exfalso. apply Hnot. left.
      revert A. clear. destruct c as [[] [] [] [] [] [] [] []]; vm_compute;
        intros A; try discriminate A; reflexivity. }
    now rewrite A. }
  rewrite E. f_equal. apply IH. intros H. apply Hnot. now right.
Qed.

Lemma sanitize_input_steps (text : string) :
  sanitize_input text =
  fold_left (fun text pattern => sub IGNORECASE pattern text)
    (tl dangerous_patterns) (Html.escape (Html.remove_char "000" text)).
Proof.
  unfold sanitize_input. destruct (String.eqb_spec text "") as [->|_];
    [reflexivity|].
  change dangerous_patterns
    with (hd PEps dangerous_patterns :: tl dangerous_patterns) at 1.
  cbn [fold_left]. f_equal. unfold sub. apply escape_sub_script.
  intros H. apply escape_chars in H as [H _]. discriminate H.
Qed.

(** The first substitution of [sanitize_input] never finds its pattern:
    [html.escape] has already rewritten every "<". The test for the empty
    text changes nothing either. *)
Theorem sanitize_input_script_pattern_idle (text : string) :
  sub IGNORECASE (hd PEps dangerous_patterns)
    (Html.escape (Html.remove_char "000" text))
  = Html.escape (Html.remove_char "000" text)
  /\ sanitize_input text =
     fold_left (fun text pattern => sub IGNORECASE pattern text)
       (tl dangerous_patterns) (Html.escape (Html.remove_char "000" text)).
Proof.
  split; [|apply sanitize_input_steps].
  unfold sub. apply escape_sub_script.
  intros H. apply escape_chars in H as [H _]. discriminate H.
Qed.

Lemma escape_unchanged (s : string) :
  forallb (fun c => negb (markup_char c || Ascii.eqb c "&")) (chars s) = true ->
  Html.escape (Html.remove_char "000" s) = s.
Proof.
  induction s as [|c s IH]; [reflexivity|].
  simpl. intros H. apply andb_true_iff in H as [Hc Hs].
  apply negb_true_iff in Hc. unfold markup_char in Hc.
  repeat (apply orb_false_iff in Hc as [Hc ?]).
  rewrite Hc. simpl. unfold Html.escape_char.
  repeat match goal with H : Ascii.eqb c _ = false |- _ => rewrite H; clear H end.
  rewrite append_cons. f_equal. now apply IH.
Qed.

(** [sanitize_input] returns a clean text as it is. *)
Theorem sanitize_input_clean (text : string) :
  clean text = true -> sanitize_input text = text.
Proof.
  unfold clean. intros H. apply andb_true_iff in H as [Hc Hp].
  rewrite sanitize_input_steps, (escape_unchanged _ Hc).
  pose proof (proj1 (forallb_forall _ _) Hp) as Hall.
  assert (Hsub : forall p, In p (tl dangerous_patterns) ->
                   sub IGNORECASE p text = text).
  { intros p Hin. apply sub_unchanged.
    apply negb_true_iff, Hall. now right. }
  cbn [tl dangerous_patterns fold_left].
  rewrite !Hsub; [reflexivity | | |]; cbn; auto.
Qed.

Lemma sanitize_input_clean_witness :
  clean "Hello, world: 3 + 4 is 7; see java script (v2)." = true /\
  sanitize_input "Hello, world: 3 + 4 is 7; see java script (v2)."
  = "Hello, world: 3 + 4 is 7; see java script (v2).".
Proof.
  split; [reflexivity|]. apply sanitize_input_clean. reflexivity.
Defined.

(** One pass is not a fixed point: deleting a match can put a pattern
    together, an event-handler match can start inside a word, and what is
    returned is escaped again on a second call. *)
Example sanitize_input_single_pass :
  sanitize_input "jajavascript:vascript:alert(1)" = "javascript:alert(1)" /\
  sanitize_input "Monday = 3" = "M 3" /\
  sanitize_input "a & b" = "a &amp; b" /\
  sanitize_input (sanitize_input "a & b") = "a &amp;amp; b".
Proof. repeat split; vm_compute; reflexivity. Qed.

Lemma sub_from_length (ignorecase : bool) (p : pattern) :
  forall s prev skip,
    (String.length (sub_from ignorecase p prev s skip) <= String.length s)%nat.
Proof.
  induction s as [|c s IH]; intros prev skip; [reflexivity|].
  cbn [sub_from]. destruct skip as [|n].
  - destruct (match_at ignorecase p prev (String c s)); simpl.
    + specialize (IH (Some c) (String.length s - String.length s0)%nat). lia.
    + specialize (IH (Some c) 0%nat). lia.
  - specialize (IH (Some c) n). simpl. lia.
Qed.

Lemma escape_length (s : string) :
  (String.length (Html.escape s) <= 6 * String.length s)%nat.
Proof.
  induction s as [|c s IH]; [reflexivity|].
  cbn [Html.escape]. rewrite length_append.
  assert (H : (String.length (Html.escape_char c) <= 6)%nat).
  { unfold Html.escape_char.
    repeat (destruct (Ascii.eqb c _); [simpl; lia|]). simpl. lia. }
  simpl String.length. lia.
Qed.

Lemma remove_char_length (c : ascii) (s : string) :
  (String.length (Html.remove_char c s) <= String.length s)%nat.
Proof.
  induction s as [|x s IH]; [reflexivity|].
  simpl. destruct (Ascii.eqb x c); simpl; lia.
Qed.

(** Sanitizing makes a text at most six times as long (the entity for the
    double quote has six characters). *)
Theorem sanitize_input_length (text : string) :
  (String.length (sanitize_input text) <= 6 * String.length text)%nat.
Proof.
  unfold sanitize_input. destruct (String.eqb text ""); [simpl; lia|].
  pose proof (remove_char_length "000" text) as Hr.
  pose proof (escape_length (Html.remove_char "000" text)) as He.
  set (t := Html.escape _) in *.
  assert (Hs : forall ps t0,
             (String.length
                (fold_left (fun text pattern => sub IGNORECASE pattern text) ps t0)
              <= String.length t0)%nat).
  { induction ps as [|p ps IH]; intros t0; [reflexivity|].
    cbn [fold_left]. specialize (IH (sub IGNORECASE p t0)).
    pose proof (sub_from_length IGNORECASE p t0 None 0). unfold sub in *. lia. }
  specialize (Hs dangerous_patterns t). lia.
Qed.

(** ** The authentication hook *)

(** Without a usable token (none stored, or the empty string) [checkAuth]
    sends nothing: whatever the server would answer, only [loading] is
    cleared. *)
Theorem checkAuth_without_token (get_me : me_endpoint) (s : auth) :
  usable (stored_token s) = false ->
  checkAuth get_me s
  = {| stored_token := stored_token s; user := user s; loading := false |}.
Proof.
  destruct s as [[t|] u l]; unfold checkAuth, usable;
    cbn [stored_token user loading]; intros H; [|reflexivity].
  now rewrite H.
Qed.

Lemma checkAuth_without_token_witness :
  usable (stored_token {| stored_token := Some ""; user := Js.Str "ana"; loading := true |})
    = false /\
  checkAuth (fun _ => Some (Js.Str "root"))
    {| stored_token := Some ""; user := Js.Str "ana"; loading := true |}
  = {| stored_token := Some ""; user := Js.Str "ana"; loading := false |}.
Proof.
  split; [reflexivity|].
  apply (checkAuth_without_token (fun _ => Some (Js.Str "root"))
           {| stored_token := Some ""; user := Js.Str "ana"; loading := true |}).
  reflexivity.
Defined.

(** When the server rejects the stored token, [checkAuth] removes the token
    and leaves [user] as it was: a user set earlier stays authenticated. *)
Theorem checkAuth_rejected (get_me : me_endpoint) (s : auth) (token : string) :
  stored_token s = Some token ->
  usable (Some token) = true ->
  get_me ("Bearer " +:+ token) = None ->
  checkAuth get_me s = {| stored_token := None; user := user s; loading := false |}
  /\ isAuthenticated (checkAuth get_me s) = isAuthenticated s.
Proof.
  unfold checkAuth, usable, isAuthenticated. intros -> -> ->. now split.
Qed.

Lemma checkAuth_rejected_witness :
  checkAuth (fun _ => None)
    {| stored_token := Some "t0"; user := Js.Str "ana"; loading := false |}
  = {| stored_token := None; user := Js.Str "ana"; loading := false |}
  /\ isAuthenticated
       (checkAuth (fun _ => None)
          {| stored_token := Some "t0"; user := Js.Str "ana"; loading := false |})
     = true.
Proof.
  apply (checkAuth_rejected (fun _ => None)
           {| stored_token := Some "t0"; user := Js.Str "ana"; loading := false |}
           "t0"); reflexivity.
Defined.

(** Running [checkAuth] again against the same server changes nothing. *)
Theorem checkAuth_idempotent (get_me : me_endpoint) (s : auth) :
  checkAuth get_me (checkAuth get_me s) = checkAuth get_me s.
Proof.
  unfold checkAuth. destruct s as [[t|] u l]; cbn [stored_token user loading];
    [|reflexivity].
  destruct (Js.truthy (Js.Str t)) eqn:T; cbn [stored_token user loading].
  - destruct (get_me ("Bearer " +:+ t)) as [d|] eqn:G;
      cbn [stored_token user loading]; [|reflexivity].
    now rewrite T, G.
  - now rewrite T.
Qed.

(** After the provider has mounted, the user counts as authenticated exactly
    when a non-empty token was stored and the server answered the request
    carrying it with a body that counts as a user. *)
Theorem mount_authenticated (get_me : me_endpoint) (storage : option string) :
  isAuthenticated (mount get_me storage)
  = match storage with
    | Some token =>
        Js.truthy (Js.Str token)
        && match get_me ("Bearer " +:+ token) with
           | Some data => Js.truthy data
           | None => false
           end
    | None => false
    end
  /\ loading (mount get_me storage) = false.
Proof.
  unfold mount, checkAuth, isAuthenticated. cbn [stored_token user loading].
  split; [|reflexivity].
  destruct storage as [t|]; [|reflexivity].
  destruct (Js.truthy (Js.Str t)); [|reflexivity].
  now destruct (get_me ("Bearer " +:+ t)).
Qed.

(** A [login] that throws (the request is rejected, or the body is null or
    undefined) leaves the token and the state as they were. *)
Theorem login_thrown_changes_nothing (post_login : login_endpoint)
    (get_me : me_endpoint) (username password : string) (s : auth) :
  fst (login post_login get_me username password s) = Thrown ->
  snd (login post_login get_me username password s) = s.
Proof.
  unfold login. destruct (post_login username password) as [data|];
    [|reflexivity].
  destruct (Js.access_token_of data); [discriminate | reflexivity].
Qed.

Lemma login_thrown_changes_nothing_witness :
  fst (login (fun _ _ => Some Js.Null) (fun _ => Some (Js.Str "ana")) "ana" "pw"
         {| stored_token := Some "t0"; user := Js.Str "bo"; loading := false |})
    = Thrown /\
  snd (login (fun _ _ => Some Js.Null) (fun _ => Some (Js.Str "ana")) "ana" "pw"
         {| stored_token := Some "t0"; user := Js.Str "bo"; loading := false |})
    = {| stored_token := Some "t0"; user := Js.Str "bo"; loading := false |}.
Proof.
  split; [reflexivity|].
  apply (login_thrown_changes_nothing (fun _ _ => Some Js.Null)
           (fun _ => Some (Js.Str "ana")) "ana" "pw"
           {| stored_token := Some "t0"; user := Js.Str "bo"; loading := false |}).
  reflexivity.
Defined.

(** A [login] whose request succeeds with a body that is not null or
    undefined returns that body, whatever happens next, and stores the text
    of [access_token] ("undefined" when the field is missing). When that
    text is empty, no request for the user is made: the empty token stays
    stored and the user is as before. Otherwise the text is what the
    request for the user carries: the user becomes the answer, or, on
    rejection, the token is removed again and the user stays as before. *)
Theorem login_returned (post_login : login_endpoint) (get_me : me_endpoint)
    (username password : string) (s : auth) (data access_token : Js.value) :
  post_login username password = Some data ->
  Js.access_token_of data = Some access_token ->
  login post_login get_me username password s
  = (Returned data,
     if String.eqb (Js.to_string access_token) EmptyString then
       {| stored_token := Some EmptyString; user := user s; loading := false |}
     else
       match get_me ("Bearer " +:+ Js.to_string access_token) with
       | Some me =>
           {| stored_token := Some (Js.to_string access_token);
              user := me; loading := false |}
       | None =>
           {| stored_token := None; user := user s; loading := false |}
       end).
Proof.
  intros Hp Ha. unfold login, checkAuth. rewrite Hp, Ha.
  cbn [stored_token user loading Js.truthy].
  destruct (String.eqb_spec (Js.to_string access_token) EmptyString) as [->|_];
    cbn [negb]; [reflexivity|].
  now destruct (get_me _).
Qed.

Lemma login_returned_witness :
  login (fun _ _ => Some (Js.Obj [("token_type", Js.Str "bearer")]))
        (fun _ => None) "ana" "pw"
        {| stored_token := None; user := Js.Null; loading := false |}
  = (Returned (Js.Obj [("token_type", Js.Str "bearer")]),
     {| stored_token := None; user := Js.Null; loading := false |}) /\
  login (fun _ _ => Some (Js.Obj [("access_token", Js.Arr [])]))
        (fun _ => Some (Js.Str "ana")) "ana" "pw"
        {| stored_token := None; user := Js.Null; loading := true |}
  = (Returned (Js.Obj [("access_token", Js.Arr [])]),
     {| stored_token := Some EmptyString; user := Js.Null; loading := false |}).
Proof.
  split.
  - exact (login_returned (fun _ _ => Some (Js.Obj [("token_type", Js.Str "bearer")]))
             (fun _ => None) "ana" "pw"
             {| stored_token := None; user := Js.Null; loading := false |}
             (Js.Obj [("token_type", Js.Str "bearer")]) Js.Undefined
             eq_refl eq_refl).
  - exact (login_returned (fun _ _ => Some (Js.Obj [("access_token", Js.Arr [])]))
             (fun _ => Some (Js.Str "ana")) "ana" "pw"
             {| stored_token := None; user := Js.Null; loading := true |}
             (Js.Obj [("access_token", Js.Arr [])]) (Js.Arr [])
             eq_refl eq_refl).
Defined.

Lemma step_authenticates (s : auth) (a : action) :
  isAuthenticated s = false -> isAuthenticated (step s a) = true -> accepted a.
Proof.
  unfold isAuthenticated. destruct s as [tok u l]. cbn [user].
  intros Hs H. destruct a as [g|p g un pw|]; cbn [step accepted] in *.
  - unfold checkAuth in H. cbn [stored_token user loading] in H.
    destruct tok as [t|]; [|cbn in H; congruence].
    destruct (Js.truthy (Js.Str t)); [|cbn in H; congruence].
    destruct (g ("Bearer " +:+ t)) as [d|] eqn:G; cbn in H; [|congruence].
    now exists ("Bearer " +:+ t), d.
  - unfold login in H. destruct (p un pw) as [data|]; [|cbn in H; congruence].
    destruct (Js.access_token_of data) as [at_|]; [|cbn in H; congruence].
    cbn [snd] in H. unfold checkAuth in H. cbn [stored_token user loading] in H.
    destruct (Js.truthy (Js.Str (Js.to_string at_))); [|cbn in H; congruence].
    destruct (g ("Bearer " +:+ Js.to_string at_)) as [d|] eqn:G;
      cbn in H; [|congruence].
    now exists ("Bearer " +:+ Js.to_string at_), d.
  - unfold logout in H. cbn in H. discriminate.
Qed.

(** Nobody becomes authenticated without the server: if a run of actions
    starts with no user and ends with one, in one of the actions the server
    accepted a token and sent a body that counts as a user. *)
Theorem authenticated_only_by_server (actions : list action) (s : auth) :
  isAuthenticated s = false ->
  isAuthenticated (run actions s) = true ->
  exists a, In a actions /\ accepted a.
Proof.
  unfold run. revert s. induction actions as [|a actions IH]; intros s Hs H.
  - simpl in H. congruence.
  - simpl in H. destruct (isAuthenticated (step s a)) eqn:E.
    + exists a. split; [now left | now apply (step_authenticates s)].
    + destruct (IH _ E H) as (b & Hb & Hacc). exists b. split; [now right | exact Hacc].
Qed.

Lemma authenticated_only_by_server_witness :
  exists a,
    In a [Logout; Login (fun _ _ => Some (Js.Obj [("access_token", Js.Str "t1")]))
                    (fun h => if String.eqb h "Bearer t1"
                              then Some (Js.Obj [("username", Js.Str "ana")])
                              else None)
                    "ana" "pw"]
    /\ accepted a.
Proof.
  apply (authenticated_only_by_server _
           {| stored_token := None; user := Js.Null; loading := true |});
    reflexivity.
Defined.

(** ** After logout *)

Lemma checkAuth_signed_out (get_me : me_endpoint) (s : auth) :
  stored_token s = None -> isAuthenticated s = false ->
  stored_token (checkAuth get_me s) = None
  /\ isAuthenticated (checkAuth get_me s) = false.
Proof.
  destruct s as [tok u l]. unfold checkAuth, isAuthenticated.
  cbn [stored_token user loading]. intros -> H. now split.
Qed.

(** After [logout] the token is gone and nobody is authenticated, and any
    number of later [checkAuth] calls keep it so, whatever the server would
    answer. *)
Theorem logout_stays_signed_out (servers : list me_endpoint) (s : auth) :
  stored_token (run (Logout :: map CheckAuth servers) s) = None
  /\ isAuthenticated (run (Logout :: map CheckAuth servers) s) = false.
Proof.
  unfold run. cbn [fold_left step].
  assert (H : stored_token (logout s) = None /\ isAuthenticated (logout s) = false)
    by now split.
  revert H. generalize (logout s). clear s.
  induction servers as [|g servers IH]; intros s [Ht Ha]; [now split|].
  cbn [map fold_left step]. apply IH. now apply checkAuth_signed_out.
Qed.

(** ** Extending a text without gluing words *)

Section Junction.

Variable ignorecase : bool.

Lemma may_be_word_is_word (c : option ascii) :
  is_word_opt c = true -> may_be_word c = true.
Proof. destruct c as [c|]; simpl; [|discriminate]. intros ->. reflexivity. Qed.

(** A boundary that holds at the end of the text still holds when text that
    is not glued to it follows. *)
Lemma at_boundary_append (q : string) (prev : option ascii) (s : string) :
  may_be_word (final prev s) && may_be_word (head q) = false ->
  at_boundary prev s = true -> at_boundary prev (s +:+ q) = true.
Proof.
  destruct s as [|c s]; [|now rewrite append_cons].
  change ("" +:+ q) with q. unfold at_boundary. cbn [final head is_word_opt].
  rewrite xorb_false_r. intros G H.
  rewrite (may_be_word_is_word _ H) in G. cbn [andb] in G.
  destruct (is_word_opt (head q)) eqn:W.
  - now rewrite (may_be_word_is_word _ W) in G.
  - now rewrite H.
Qed.

Variables (q : string) (f : option ascii).
Hypothesis Hglue : may_be_word f && may_be_word (head q) = false.

Lemma star_loop_append (step : option ascii -> string -> cont -> bool) (k k' : cont) :
  (forall prev s j j', final prev s = f -> cont_appends q f j j' ->
     step prev s j = true -> step prev (s +:+ q) j' = true) ->
  cont_appends q f k k' ->
  forall n n' prev s, (n <= n')%nat -> final prev s = f ->
    star_loop step k n prev s = true ->
    star_loop step k' n' prev (s +:+ q) = true.
Proof.
  intros Hstep Hk. induction n as [|n IH]; intros n' prev s Hn Hf H.
  - simpl in H. rewrite orb_false_r in H.
    destruct n'; simpl; rewrite (Hk _ _ Hf H); reflexivity.
  - destruct n' as [|n']; [lia|].
    cbn [star_loop] in H |- *. apply orb_true_iff in H as [H|H].
    + rewrite (Hk _ _ Hf H). reflexivity.
    + apply orb_true_iff. right.
      eapply Hstep; [exact Hf | | exact H].
      intros p s' Hf' Hs'. apply andb_true_iff in Hs' as [Hlen Hloop].
      apply andb_true_iff. split.
      * apply Nat.ltb_lt in Hlen. apply Nat.ltb_lt.
        rewrite !length_append. lia.
      * apply (IH n' p s'); [lia | exact Hf' | exact Hloop].
Qed.

(** Any pattern, [\b] included, that matches keeps matching when text that
    is not glued to the end of the input is added after it. *)
Lemma matches_append (r : regex) :
  forall prev s k k',
    final prev s = f -> cont_appends q f k k' ->
    matches ignorecase r prev s k = true ->
    matches ignorecase r prev (s +:+ q) k' = true.
Proof.
  induction r as [|a|r1 IH1 r2 IH2|r1 IH1 r2 IH2|r IH|];
    intros prev s k k' Hf Hk H; cbn [matches] in *.
  - now apply Hk.
  - destruct s as [|c s]; [discriminate|]. rewrite append_cons.
    apply andb_true_iff in H as [Ha Hc]. rewrite Ha. cbn [andb].
    now apply Hk.
  - eapply IH1; [exact Hf | | exact H].
    intros p s' Hf' Hs'. now apply (IH2 p s' k k').
  - apply orb_true_iff in H as [H|H]; apply orb_true_iff.
    + left. now apply (IH1 prev s k k').
    + right. now apply (IH2 prev s k k').
  - eapply star_loop_append; [| exact Hk | | exact Hf | exact H].
    + intros p s' j j' Hf' Hj Hm. now apply (IH p s' j j').
    + rewrite length_append. lia.
  - apply andb_true_iff in H as [Hb Hc].
    rewrite at_boundary_append; [|now rewrite Hf|exact Hb].
    cbn [andb]. now apply Hk.
Qed.

Lemma search_from_append_unglued (r : regex) :
  forall s prev, final prev s = f ->
    search_from ignorecase r prev s = true ->
    search_from ignorecase r prev (s +:+ q) = true.
Proof.
  assert (Hacc : cont_appends q f accept accept) by (intros p s _ _; reflexivity).
  induction s as [|c s IH]; intros prev Hf H.
  - simpl in H. rewrite orb_false_r in H.
    pose proof (matches_append r prev "" accept accept Hf Hacc H) as M.
    change ("" +:+ q) with q in *.
    destruct q; cbn [search_from]; rewrite M; reflexivity.
  - cbn [search_from] in H. rewrite append_cons. cbn [search_from].
    apply orb_true_iff in H as [H|H]; apply orb_true_iff.
    + left. pose proof (matches_append r prev (String c s) accept accept Hf Hacc H) as M.
      now rewrite append_cons in M.
    + right. apply (IH (Some c)); [exact Hf | exact H].
Qed.

End Junction.

Section Entry.

Variable ignorecase : bool.
Variables (prev prev' : option ascii) (s : string).
Hypothesis Hentry : at_boundary prev s = true -> at_boundary prev' s = true.

(** At the start of [s] a match does not depend on the character before, as
    long as no boundary is lost there. *)
Lemma matches_entry (r : regex) :
  forall k k',
    (k prev s = true -> k' prev' s = true) ->
    (forall p x, k p x = true -> k' p x = true) ->
    matches ignorecase r prev s k = true ->
    matches ignorecase r prev' s k' = true.
Proof.
  induction r as [|a|r1 IH1 r2 IH2|r1 IH1 r2 IH2|r IH|];
    intros k k' H0 Hk H; cbn [matches] in *.
  - now apply H0.
  - destruct s as [|c x]; [discriminate|].
    apply andb_true_iff in H as [Ha Hc]. rewrite Ha. cbn [andb]. now apply Hk.
  - eapply IH1; [| | exact H].
    + now apply IH2.
    + intros p x. now apply matches_weaken.
  - apply orb_true_iff in H as [H|H]; apply orb_true_iff.
    + left. now apply (IH1 k k').
    + right. now apply (IH2 k k').
  - remember (String.length s) as m eqn:Em.
    destruct m as [|n]; cbn [star_loop] in *.
    + rewrite orb_false_r in *. now apply H0.
    + apply orb_true_iff in H as [H|H]; apply orb_true_iff; [left; now apply H0|].
      right. eapply IH; [| | exact H].
      * cbv beta. intros Hx. apply andb_true_iff in Hx as [Hl _].
        apply Nat.ltb_lt in Hl. lia.
      * intros p x Hx. apply andb_true_iff in Hx as [Hl Hx]. rewrite Hl. cbn [andb].
        eapply star_loop_weaken; [| exact Hk | exact Hx].
        intros p0 x0 j j' Hj. now apply matches_weaken.
  - apply andb_true_iff in H as [Hb Hc]. rewrite (Hentry Hb). cbn [andb].
    now apply H0.
Qed.

End Entry.

Lemma search_from_entry (ignorecase : bool) (prev prev' : option ascii)
    (s : string) (r : regex) :
  (at_boundary prev s = true -> at_boundary prev' s = true) ->
  search_from ignorecase r prev s = true ->
  search_from ignorecase r prev' s = true.
Proof.
  intros Hentry H.
  assert (M : matches ignorecase r prev s accept = true ->
              matches ignorecase r prev' s accept = true)
    by (apply (matches_entry ignorecase prev prev' s Hentry r accept accept); auto).
  destruct s as [|c x]; cbn [search_from] in *;
    apply orb_true_iff in H as [H|H]; apply orb_true_iff;
    solve [left; now apply M | right; exact H].
Qed.

Lemma search_from_skip (ignorecase : bool) (r : regex) (s : string) :
  forall before p0,
    search_from ignorecase r (final p0 before) s = true ->
    search_from ignorecase r p0 (before +:+ s) = true.
Proof.
  induction before as [|c b IH]; intros p0 H; [exact H|].
  rewrite append_cons. cbn [search_from]. apply orb_true_iff. right.
  now apply IH.
Qed.

Lemma at_boundary_entry (before s : string) :
  glued before s = false ->
  at_boundary None s = true -> at_boundary (last_char before) s = true.
Proof.
  unfold glued, at_boundary. cbn [is_word_opt]. rewrite xorb_false_l.
  intros G H. rewrite H.
  rewrite (may_be_word_is_word _ H), andb_true_r in G.
  destruct (is_word_opt (last_char before)) eqn:W; [|reflexivity].
  now rewrite (may_be_word_is_word _ W) in G.
Qed.

(** [re.search] with any pattern survives text added on either side, as
    long as no word of the input is glued to the added text. *)
Lemma search_extend_unglued (ignorecase : bool) (r : regex)
    (before text after : string) :
  glued before (text +:+ after) = false ->
  glued text after = false ->
  search ignorecase r text = true ->
  search ignorecase r (before +:+ text +:+ after) = true.
Proof.
  intros Gb Ga H. unfold search in *.
  apply (search_from_skip ignorecase r (text +:+ after) before None).
  apply (search_from_entry ignorecase None (last_char before) (text +:+ after) r
           (at_boundary_entry before (text +:+ after) Gb)).
  apply (search_from_append_unglued ignorecase after (last_char text) Ga r text None
           eq_refl H).
Qed.

Lemma detect_sqli_extend (before text after : string) :
  glued before (text +:+ after) = false ->
  glued text after = false ->
  entropy_signal_kept text (before +:+ text +:+ after) = true ->
  detect_sqli text <= detect_sqli (before +:+ text +:+ after).
Proof.
  intros Gb Ga He. apply detect_sqli_signals. unfold sqli_signals_preserved.
  apply andb_true_iff. split; [apply andb_true_iff; split|exact He];
    apply forallb_forall; intros x _;
    destruct (search IGNORECASE _ text) eqn:S; try reflexivity;
    now rewrite (search_extend_unglued _ _ _ _ _ Gb Ga S).
Qed.

(** C7, amended. The confidence of [detect_xss] and of
    [detect_path_traversal] never decreases when text (in particular a
    further occurrence of a matching pattern) is added before or after the
    input. The confidence of [detect_sqli] never decreases either, provided
    the added text is not glued to a word of the input (at each junction one
    of the two adjoining characters is an ASCII character other than a
    letter, a digit and the underscore, or one side is empty) and the
    entropy signal, if it fired, still fires. *)
Theorem detector_confidence_monotone (before text after : string) :
  (glued before (text +:+ after) = false ->
   glued text after = false ->
   entropy_signal_kept text (before +:+ text +:+ after) = true ->
   detect_sqli text <= detect_sqli (before +:+ text +:+ after)) /\
  detect_xss text <= detect_xss (before +:+ text +:+ after) /\
  detect_path_traversal text <= detect_path_traversal (before +:+ text +:+ after).
Proof.
  split; [apply detect_sqli_extend|].
  split; [apply detect_xss_extend | apply detect_path_traversal_extend].
Qed.

Lemma detector_confidence_monotone_witness :
  glued "id=1 " ("union" +:+ " select 2--") = false /\
  glued "union" " select 2--" = false /\
  entropy_signal_kept "union" ("id=1 " +:+ "union" +:+ " select 2--") = true /\
  detect_sqli "union" <= detect_sqli ("id=1 " +:+ "union" +:+ " select 2--").
Proof.
  repeat (split; [reflexivity|]).
  apply (detector_confidence_monotone "id=1 " "union" " select 2--");
    reflexivity.
Defined.
